(** * monty random number library: uniform conversion, samplers, raw seeds

    A shallow embedding of

      - [inst/include/monty/random/utils.hpp]            ([int_to_real])
      - [inst/include/monty/random/cuda_compatibility.hpp] ([fatal_error])
      - [inst/include/monty/random/xoshiro_state.hpp]    ([xoshiro_state])
      - [inst/include/monty/random/gamma.hpp]            ([gamma_scale], ...)
      - [inst/include/monty/random/cauchy.hpp]           ([cauchy])
      - [inst/include/monty/random/normal_box_muller.hpp]
      - [inst/include/monty/r/random.hpp]                ([raw_seed])

    Floating-point values are IEEE 754 binary floats as specified by
    [SpecFloat] (round to nearest, ties to even, the default rounding mode
    of the C++ implementations the library targets): [double] is the format
    with [prec = 53], [emax = 1024] and [float] the one with [prec = 24],
    [emax = 128].  An expression is evaluated operation by operation, each
    one rounded (no fused multiply-add).  Unsigned machine integers are
    [Z] with the wrap-around written out.

    The samplers are templates over [real_type] and [rng_state_type]; they
    are embedded at [real_type = double], on the generator state of
    xoshiro_state.hpp, and for both ways the headers are compiled (host
    and device).  What they call but these sources do not define is
    collected in the class [Platform]. *)

From Stdlib Require Import ZArith Lia List Bool String Ascii.
From Stdlib Require Import Strings.Byte.
From Stdlib Require Import DecimalString.
From Stdlib Require Import Floats.SpecFloat.
Import ListNotations.
Local Open Scope Z_scope.

(** ** IEEE 754 formats *)

Record format : Type := mk_format { prec : Z; emax : Z }.

Definition binary64 : format := mk_format 53 1024.
Definition binary32 : format := mk_format 24 128.

(** Arithmetic of one format, with the conversions C++ performs
    implicitly: an unsigned integer operand of a floating-point
    operation is first converted to the floating type
    ([of_uint], rounding to nearest when the integer has too many bits), and
    a decimal literal denotes the nearest value of the format
    ([of_decimal m e] is the literal [m]e[e], for [e <= 0]). *)
Section FloatOps.
Variable fmt : format.

Definition fadd : spec_float -> spec_float -> spec_float :=
  SFadd (prec fmt) (emax fmt).
Definition fsub : spec_float -> spec_float -> spec_float :=
  SFsub (prec fmt) (emax fmt).
Definition fmul : spec_float -> spec_float -> spec_float :=
  SFmul (prec fmt) (emax fmt).
Definition fdiv : spec_float -> spec_float -> spec_float :=
  SFdiv (prec fmt) (emax fmt).
Definition fsqrt : spec_float -> spec_float :=
  SFsqrt (prec fmt) (emax fmt).

Definition f_of_uint (x : Z) : spec_float :=
  binary_normalize (prec fmt) (emax fmt) x 0 false.

Definition f_of_decimal (m : positive) (e : Z) : spec_float :=
  fdiv (S754_finite false m 0)
       (S754_finite false (Z.to_pos (10 ^ (- e))) 0).
End FloatOps.

(** The same value, bit for bit. *)
Definition same_float (x y : spec_float) : bool :=
  match x, y with
  | S754_zero s, S754_zero t => Bool.eqb s t
  | S754_infinity s, S754_infinity t => Bool.eqb s t
  | S754_nan, S754_nan => true
  | S754_finite s m e, S754_finite t n f =>
      Bool.eqb s t && Pos.eqb m n && Z.eqb e f
  | _, _ => false
  end.

Definition is_finite (x : spec_float) : bool :=
  match x with
  | S754_zero _ | S754_finite _ _ _ => true
  | _ => false
  end.

(** [double] *)
Module D.
Definition real_type : Type := spec_float.
Definition add : real_type -> real_type -> real_type := fadd binary64.
Definition sub : real_type -> real_type -> real_type := fsub binary64.
Definition mul : real_type -> real_type -> real_type := fmul binary64.
Definition div : real_type -> real_type -> real_type := fdiv binary64.
Definition sqrt : real_type -> real_type := fsqrt binary64.
Definition neg : real_type -> real_type := SFopp.
Definition ltb : real_type -> real_type -> bool := SFltb.
Definition leb : real_type -> real_type -> bool := SFleb.
Definition eqb : real_type -> real_type -> bool := SFeqb.
Definition of_uint : Z -> real_type := f_of_uint binary64.
Definition of_decimal : positive -> Z -> real_type := f_of_decimal binary64.
Definition zero : real_type := S754_zero false.
Definition one : real_type := of_uint 1.
Definition two : real_type := of_uint 2.
Definition infinity : real_type := S754_infinity false.
Definition nan : real_type := S754_nan.
End D.

(** [float] *)
Module F.
Definition real_type : Type := spec_float.
Definition add : real_type -> real_type -> real_type := fadd binary32.
Definition mul : real_type -> real_type -> real_type := fmul binary32.
Definition div : real_type -> real_type -> real_type := fdiv binary32.
Definition ltb : real_type -> real_type -> bool := SFltb.
Definition leb : real_type -> real_type -> bool := SFleb.
Definition eqb : real_type -> real_type -> bool := SFeqb.
Definition of_uint : Z -> real_type := f_of_uint binary32.
Definition of_decimal : positive -> Z -> real_type := f_of_decimal binary32.
Definition zero : real_type := S754_zero false.
Definition one : real_type := of_uint 1.
Definition two : real_type := of_uint 2.
End F.

(** ** utils.hpp *)

Definition uint32_max : Z := 2 ^ 32 - 1.
Definition uint64_max : Z := 2 ^ 64 - 1.

(** [#define TWOPOW32_INV (2.3283064e-10f)] *)
Definition TWOPOW32_INV : F.real_type := F.of_decimal 23283064 (-17).
(** [#define TWOPOW32_INV_DOUBLE (2.3283064365386963e-10)] *)
Definition TWOPOW32_INV_DOUBLE : D.real_type :=
  D.of_decimal 23283064365386963 (-26).
(** [#define TWOPOW53_INV_DOUBLE (1.1102230246251565e-16)] *)
Definition TWOPOW53_INV_DOUBLE : D.real_type :=
  D.of_decimal 11102230246251565 (-32).

(** [double int_to_real(uint64_t x)]:
    [(x >> 11) * TWOPOW53_INV_DOUBLE + (TWOPOW53_INV_DOUBLE / 2.0)] *)
Definition int_to_real_double_u64 (x : Z) : D.real_type :=
  D.add (D.mul (D.of_uint (Z.shiftr x 11)) TWOPOW53_INV_DOUBLE)
        (D.div TWOPOW53_INV_DOUBLE D.two).

(** [double int_to_real(uint32_t x)]:
    [x * TWOPOW32_INV_DOUBLE + (TWOPOW32_INV_DOUBLE / 2.0)] *)
Definition int_to_real_double_u32 (x : Z) : D.real_type :=
  D.add (D.mul (D.of_uint x) TWOPOW32_INV_DOUBLE)
        (D.div TWOPOW32_INV_DOUBLE D.two).

(** [float int_to_real(uint64_t x)]:
    [uint32_t t = (uint32_t)(x >> 32);
     return t * TWOPOW32_INV + (TWOPOW32_INV / 2.0f);] *)
Definition int_to_real_float_u64 (x : Z) : F.real_type :=
  let t := Z.shiftr x 32 mod 2 ^ 32 in
  F.add (F.mul (F.of_uint t) TWOPOW32_INV) (F.div TWOPOW32_INV F.two).

(** [float int_to_real(uint32_t x)]:
    [x * TWOPOW32_INV + (TWOPOW32_INV / 2.0f)] *)
Definition int_to_real_float_u32 (x : Z) : F.real_type :=
  F.add (F.mul (F.of_uint x) TWOPOW32_INV) (F.div TWOPOW32_INV F.two).

(** ** cuda_compatibility.hpp *)

(** The two ways the headers are compiled: [Host] is gcc/clang or nvcc
    generating host code ([__CUDA_ARCH__] undefined), [Device] is nvcc
    generating device code ([__CUDA_ARCH__] defined). *)
Inductive backend : Type := Host | Device.

(** What a call does when it does not return: [runtime_error what] is
    [throw std::runtime_error(what)], [trap printed] is the device's
    [printf(...); __trap();], which cannot be caught. *)
Inductive failure : Type :=
| runtime_error (what : string)
| trap (printed : string).

(** ** xoshiro_state.hpp *)

(** [class xoshiro_state<T, N, X>]: the array [int_type state[N]] and the
    flag [bool deterministic]. *)
Record xoshiro_state : Type := mk_state {
  state : list Z;
  deterministic : bool
}.

Inductive int_type : Type := uint32_t | uint64_t.

Definition sizeof (t : int_type) : Z :=
  match t with uint32_t => 4 | uint64_t => 8 end.

(** ** Calls that take [rng_state_type&] *)

(** A call on a generator state returns a value and leaves the state
    modified, throws (the state is as the throw left it), traps, or, for
    the two [while] loops, is still running when the fuel of the model
    is used up. *)
Inductive outcome (A : Type) : Type :=
| Returned (a : A) (s : xoshiro_state)
| Threw (what : string) (s : xoshiro_state)
| Trapped (printed : string)
| OutOfFuel.
Arguments Returned {A} a s.
Arguments Threw {A} what s.
Arguments Trapped {A} printed.
Arguments OutOfFuel {A}.

Definition M (A : Type) : Type := xoshiro_state -> outcome A.

Definition ret {A} (a : A) : M A := fun s => Returned a s.

Definition bind {A B} (m : M A) (k : A -> M B) : M B :=
  fun s =>
    match m s with
    | Returned a s' => k a s'
    | Threw what s' => Threw what s'
    | Trapped printed => Trapped printed
    | OutOfFuel => OutOfFuel
    end.

Notation "x <- m ;; k" := (bind m (fun x => k))
  (at level 61, m at next level, right associativity).
Notation "m ;;; k" := (bind m (fun _ => k))
  (at level 61, right associativity).

Definition get_deterministic : M bool :=
  fun s => Returned (deterministic s) s.

Definition failed {A} (o : outcome A) : option failure :=
  match o with
  | Threw what _ => Some (runtime_error what)
  | Trapped printed => Some (trap printed)
  | _ => None
  end.

(** [fatal_error]:
    [#ifdef __CUDA_ARCH__ printf(message); printf("\n"); __trap();
     #else throw std::runtime_error(message); #endif] *)
Definition newline : string := String (ascii_of_nat 10) EmptyString.

Definition fatal_error {A} (b : backend) (message : string) : M A :=
  fun s =>
    match b with
    | Device => Trapped (message ++ newline)
    | Host => Threw message s
    end.

(** ** What the samplers include from outside these sources

    [next] is declared in xoshiro_state.hpp and specialised per algorithm
    elsewhere; [normal] and [exponential_mean] come from normal.hpp and
    exponential.hpp; [log], [pow], [tan], [cos] are the [monty::math]
    wrappers of libm; [fmt_g] is printf's [%g].  The samplers are verified
    for every choice of these. *)
Class Platform : Type := {
  word : int_type;
  next : xoshiro_state -> Z * xoshiro_state;
  normal : D.real_type -> D.real_type -> M D.real_type;
  exponential_mean : D.real_type -> M D.real_type;
  log : D.real_type -> D.real_type;
  pow : D.real_type -> D.real_type -> D.real_type;
  tan : D.real_type -> D.real_type;
  cos : D.real_type -> D.real_type;
  fmt_g : D.real_type -> string
}.

(** [M_PI], the [double] nearest to pi. *)
Definition M_PI : D.real_type := D.of_decimal 314159265358979323846 (-20).

(** [0.0331], [0.5], [9.0] and [1.0 / 3.0] as [double] constants. *)
Definition c_0_0331 : D.real_type := D.of_decimal 331 (-4).
Definition c_0_5 : D.real_type := D.of_decimal 5 (-1).
Definition c_9 : D.real_type := D.of_uint 9.
Definition c_third : D.real_type := D.div D.one (D.of_uint 3).

Declare Scope real_scope.
Delimit Scope real_scope with real.
Infix "+" := D.add : real_scope.
Infix "-" := D.sub : real_scope.
Infix "*" := D.mul : real_scope.
Infix "/" := D.div : real_scope.
Infix "<?" := D.ltb : real_scope.
Infix "<=?" := D.leb : real_scope.
Infix "=?" := D.eqb : real_scope.

Section Samplers.
Context {P : Platform}.

(** [template <> double int_to_real(U x)], selected by the generator's
    [int_type]. *)
Definition int_to_real (x : Z) : D.real_type :=
  match word with
  | uint64_t => int_to_real_double_u64 x
  | uint32_t => int_to_real_double_u32 x
  end.

(** Modelled from the spec: [random_real], defined in
    monty/random/generator.hpp, which is outside the sources read here:
    the UniformSampler takes the generator's next raw integer and
    converts it with [int_to_real]. *)
Definition random_real : M D.real_type :=
  fun s => let (x, s') := next s in Returned (int_to_real x) s'.

(** *** gamma.hpp *)

(** [snprintf(buffer, 256, "Invalid call to gamma with shape = %g, scale = %g", ...)] *)
Definition gamma_message (shape scale : D.real_type) : string :=
  substring 0 255
    ("Invalid call to gamma with shape = " ++ fmt_g shape
     ++ ", scale = " ++ fmt_g scale).

(** [if (shape < 0.0 || scale < 0.0) { ...; fatal_error(buffer); }] *)
Definition gamma_validate (b : backend) (shape scale : D.real_type)
  : M unit :=
  if ((shape <? D.zero) || (scale <? D.zero))%real
  then fatal_error b (gamma_message shape scale)
  else ret tt.

(** One turn of [while (true) { ... }] in [gamma_large]: [Some r] is
    [return r], [None] is a turn that ends in [continue] or falls off
    the end of the body. *)
Definition gamma_large_body (d c : D.real_type) : M (option D.real_type) :=
  x <- normal D.zero D.one ;;
  let v_cbrt := (D.one + c * x)%real in
  if (v_cbrt <=? D.zero)%real then ret None
  else
    let v := (v_cbrt * v_cbrt * v_cbrt)%real in
    u <- random_real ;;
    let x_sqr := (x * x)%real in
    if ((u <? D.one - c_0_0331 * x_sqr * x_sqr)
        || (log u <? c_0_5 * x_sqr + d * (D.one - v + log v)))%real
    then ret (Some (d * v)%real)
    else ret None.

Fixpoint gamma_large_loop (fuel : nat) (d c : D.real_type)
  : M D.real_type :=
  match fuel with
  | O => fun _ => OutOfFuel
  | S fuel' =>
      r <- gamma_large_body d c ;;
      match r with
      | Some g => ret g
      | None => gamma_large_loop fuel' d c
      end
  end.

Definition gamma_large (fuel : nat) (shape : D.real_type)
  : M D.real_type :=
  let d := (shape - c_third)%real in
  let c := (D.one / D.sqrt (c_9 * d))%real in
  gamma_large_loop fuel d c.

Definition gamma_small (fuel : nat) (shape : D.real_type)
  : M D.real_type :=
  let inv_shape := (D.one / shape)%real in
  u <- random_real ;;
  g <- gamma_large fuel (shape + D.one)%real ;;
  ret (g * pow u inv_shape)%real.

Definition gamma_deterministic (shape scale : D.real_type) : D.real_type :=
  (shape * scale)%real.

(** The [static_assert] under [#ifdef __CUDA_ARCH__] has a string literal
    for its condition, which is true: it rejects nothing, and the device
    build runs the same statements as the host build. *)
Definition gamma_scale (b : backend) (fuel : nat)
           (shape scale : D.real_type) : M D.real_type :=
  gamma_validate b shape scale ;;;
  if ((shape =? D.zero) || (scale =? D.zero))%real then ret D.zero
  else
    det <- get_deterministic ;;
    if det then ret (gamma_deterministic shape scale)
    else if (shape <? D.one)%real then
      g <- gamma_small fuel shape ;; ret (g * scale)%real
    else if (shape =? D.one)%real then exponential_mean scale
    else g <- gamma_large fuel shape ;; ret (g * scale)%real.

Definition gamma_rate (b : backend) (fuel : nat)
           (shape rate : D.real_type) : M D.real_type :=
  let scale := (D.one / rate)%real in
  gamma_validate b shape scale ;;;
  gamma_scale b fuel shape scale.

(** *** cauchy.hpp *)

Definition cauchy_message : string :=
  "Can't use Cauchy distribution deterministically; it has no mean".

(** The test of [rng_state.deterministic] is inside
    [#ifndef __CUDA_ARCH__ ... #endif]. *)
Definition cauchy (b : backend) (location scale : D.real_type)
  : M D.real_type :=
  match b with
  | Host =>
      det <- get_deterministic ;;
      if det then (fun s => Threw cauchy_message s) else ret tt
  | Device => ret tt
  end ;;;
  u <- random_real ;;
  ret (location + scale * tan (M_PI * u))%real.

(** *** normal_box_muller.hpp *)

(** Modelled from the spec: [utils::epsilon<real_type>()], defined in
    monty/random/numeric.hpp, which is outside the sources read here:
    the machine epsilon of [double], [2^-52]. *)
Definition epsilon : D.real_type := S754_finite false (2 ^ 52) (-104).

Definition two_pi : D.real_type := (D.two * M_PI)%real.

(** [do { u1 = random_real(rng_state); u2 = random_real(rng_state); }
     while (u1 <= epsilon);] *)
Fixpoint box_muller_draws (fuel : nat) : M (D.real_type * D.real_type) :=
  match fuel with
  | O => fun _ => OutOfFuel
  | S fuel' =>
      u1 <- random_real ;;
      u2 <- random_real ;;
      if (u1 <=? epsilon)%real then box_muller_draws fuel'
      else ret (u1, u2)
  end.

Definition box_muller_value (u1 u2 : D.real_type) : D.real_type :=
  (D.sqrt (D.neg D.two * log u1) * cos (two_pi * u2))%real.

Definition random_normal_box_muller (fuel : nat) : M D.real_type :=
  p <- box_muller_draws fuel ;;
  ret (box_muller_value (fst p) (snd p)).

(** *** The stream of draws *)

(** The generator after [k] words have been taken from it, and the
    uniform that the next call of [random_real] then returns. *)
Definition advance (k : nat) (s : xoshiro_state) : xoshiro_state :=
  Nat.iter k (fun s' => snd (next s')) s.

Definition nth_uniform (k : nat) (s : xoshiro_state) : D.real_type :=
  int_to_real (fst (next (advance k s))).

(** In the stream from [s], the pairs of draws [0 .. n-1] have a first
    component [<= epsilon] and pair [n] does not. *)
Definition accepts_at (n : nat) (s : xoshiro_state) : Prop :=
  (forall i, (i < n)%nat ->
             (nth_uniform (2 * i) s <=? epsilon)%real = true)
  /\ (nth_uniform (2 * n) s <=? epsilon)%real = false.

(** *** The algorithms as the specification words them *)

(** Box-Muller as specified: "draw U1 rejecting U1 <= machine epsilon;
    draw U2; return sqrt(-2 ln U1) cos(2 pi U2)". *)
Fixpoint spec_draw_u1 (fuel : nat) : M D.real_type :=
  match fuel with
  | O => fun _ => OutOfFuel
  | S fuel' =>
      u1 <- random_real ;;
      if (u1 <=? epsilon)%real then spec_draw_u1 fuel' else ret u1
  end.

Definition spec_box_muller (fuel : nat) : M D.real_type :=
  u1 <- spec_draw_u1 fuel ;;
  u2 <- random_real ;;
  ret (D.sqrt (D.neg D.two * log u1) * cos (two_pi * u2))%real.

(** One attempt of Marsaglia and Tsang's loop as specified: "draw a
    standard normal X; compute v = (1+cX)^3; reject if v <= 0; draw
    uniform U; accept if U < 1 - 0.0331 X^4, else if
    ln U < X^2/2 + d(1 - v + ln v); on acceptance return d v". *)
Definition spec_gamma_attempt (d c : D.real_type)
  : M (option D.real_type) :=
  x <- normal D.zero D.one ;;
  let v := ((D.one + c * x) * (D.one + c * x) * (D.one + c * x))%real in
  if (v <=? D.zero)%real then ret None
  else
    u <- random_real ;;
    if (u <? D.one - c_0_0331 * (x * x) * (x * x))%real then
      ret (Some (d * v)%real)
    else if (log u <? c_0_5 * (x * x) + d * (D.one - v + log v))%real
    then ret (Some (d * v)%real)
    else ret None.

Fixpoint spec_gamma_loop (fuel : nat) (d c : D.real_type)
  : M D.real_type :=
  match fuel with
  | O => fun _ => OutOfFuel
  | S fuel' =>
      r <- spec_gamma_attempt d c ;;
      match r with
      | Some g => ret g
      | None => spec_gamma_loop fuel' d c
      end
  end.

Definition spec_gamma_large (fuel : nat) (shape : D.real_type)
  : M D.real_type :=
  let d := (shape - D.one / D.of_uint 3)%real in
  let c := (D.one / D.sqrt (D.of_uint 9 * d))%real in
  spec_gamma_loop fuel d c.

End Samplers.


(** ** r/random.hpp *)

(** The bytes of one integer, as [memcpy] lays them out on the
    little-endian hosts R runs on. *)
Fixpoint le_word (bs : list byte) : Z :=
  match bs with
  | [] => 0
  | b :: rest => Z.of_N (Byte.to_N b) + 256 * le_word rest
  end.

(** [std::vector<int_type> seed(n); std::memcpy(seed.data(), RAW(seed_data), ...)]:
    [n] integers of [w] bytes each. *)
Fixpoint unpack (n : nat) (w : nat) (bs : list byte) : list Z :=
  match n with
  | O => []
  | S n' => le_word (firstn w bs) :: unpack n' w (skipn w bs)
  end.

(** [cpp11::stop("Expected raw vector of length as multiple of %d for 'seed'", len)];
    [len] is a [size_t] of at most [8 * 8], printed in decimal. *)
Definition raw_seed_message (len : Z) : string :=
  "Expected raw vector of length as multiple of "
  ++ NilZero.string_of_int (Z.to_int len) ++ " for 'seed'".

(** [raw_seed<rng_state_type>]; [t] is [rng_state_type::int_type] and [N]
    is [rng_state_type::size()]. *)
Definition raw_seed (t : int_type) (N : Z) (seed_data : list byte)
  : string + list Z :=
  let len := sizeof t * N in
  let size := Z.of_nat (List.length seed_data) in
  if (size =? 0) || negb (size mod len =? 0)
  then inl (raw_seed_message len)
  else inr (unpack (Z.to_nat (size / sizeof t)) (Z.to_nat (sizeof t))
                   seed_data).

(** ** A platform for worked examples

    A generator that replays prepared words: [next] hands out the head of
    the state array.  [normal] and [exponential_mean] follow the shape of
    the library's (pass the mean through in deterministic mode, else
    transform a draw), and libm is replaced by first-order stand-ins.
    The theorems below hold for every platform; this one makes the
    examples run. *)
Module Replay.
Definition pop (s : xoshiro_state) : Z * xoshiro_state :=
  match state s with
  | [] => (0, s)
  | x :: rest => (x, mk_state rest (deterministic s))
  end.

Definition draw : M D.real_type :=
  fun s => let (x, s') := pop s in Returned (int_to_real_double_u64 x) s'.

(** The raw word, read as an offset from [2^63], is the standard
    normal deviate. *)
Definition gauss (mean sd : D.real_type) : M D.real_type :=
  det <- get_deterministic ;;
  if det then ret mean
  else
    fun s =>
      let (x, s') := pop s in
      Returned (D.add mean (D.mul sd (D.sub (D.of_uint x)
                                             (D.of_uint (2 ^ 63))))) s'.

Definition expo (mean : D.real_type) : M D.real_type :=
  det <- get_deterministic ;;
  if det then ret mean
  else u <- draw ;; ret (D.mul (D.sub D.one u) mean).

#[export] Instance platform : Platform := {|
  word := uint64_t;
  next := pop;
  normal := gauss;
  exponential_mean := expo;
  log := fun x => D.sub x D.one;
  pow := fun x _ => x;
  tan := fun x => x;
  cos := fun _ => D.one;
  fmt_g := fun _ => "?"%string
|}.
End Replay.

(** Two generator states for the examples: one in deterministic mode,
    one whose first word converts to a uniform below [epsilon]. *)
Definition st_det : xoshiro_state := mk_state [7; 11] true.
Definition st_sto : xoshiro_state :=
  mk_state [0; 2 ^ 63; 2 ^ 62; 2 ^ 61] false.

Definition minus_one : D.real_type := D.neg D.one.

(** A buffer of 32 different bytes, [0x01] to [0x20]. *)
Definition bytes_1_to_32 : list byte :=
  [x01; x02; x03; x04; x05; x06; x07; x08;
   x09; x0a; x0b; x0c; x0d; x0e; x0f; x10;
   x11; x12; x13; x14; x15; x16; x17; x18;
   x19; x1a; x1b; x1c; x1d; x1e; x1f; x20].

(** A finite value with at most 53 bits of mantissa and an exponent not
    below that of the subnormals. *)
Definition bounded64 (y : D.real_type) : Prop :=
  match y with
  | S754_finite _ m e => Zpos m < 2 ^ 53 /\ -1074 <= e
  | _ => True
  end.

(** * More of the sources *)

(** ** utils.hpp: rotl, splitmix64 *)

(** [uint64_t rotl(const uint64_t x, int k)]:
    [(x << k) | (x >> (64 - k))] on 64-bit words; both shifts are
    defined for [0 < k < 64]. *)
Definition rotl64 (x : Z) (k : Z) : Z :=
  Z.lor (Z.shiftl x k mod 2 ^ 64) (Z.shiftr x (64 - k)).

(** [uint32_t rotl(const uint32_t x, int k)]:
    [(x << k) | (x >> (32 - k))] on 32-bit words. *)
Definition rotl32 (x : Z) (k : Z) : Z :=
  Z.lor (Z.shiftl x k mod 2 ^ 32) (Z.shiftr x (32 - k)).

(** [uint64_t splitmix64(uint64_t seed)]:
    [uint64_t z = (seed += 0x9e3779b97f4a7c15);
     z = (z ^ (z >> 30)) * 0xbf58476d1ce4e5b9;
     z = (z ^ (z >> 27)) * 0x94d049bb133111eb;
     return z ^ (z >> 31);] *)
Definition splitmix64 (seed : Z) : Z :=
  let z := (seed + 0x9e3779b97f4a7c15) mod 2 ^ 64 in
  let z := (Z.lxor z (Z.shiftr z 30) * 0xbf58476d1ce4e5b9) mod 2 ^ 64 in
  let z := (Z.lxor z (Z.shiftr z 27) * 0x94d049bb133111eb) mod 2 ^ 64 in
  Z.lxor z (Z.shiftr z 31).

(** ** xoshiro_state.hpp: operator==, operator!= *)

(** [std::equal(first1, last1, first2)]: the elements of the first range
    against those at the same places from [first2] on; the second range
    is not asked for its end. *)
Fixpoint std_equal (l1 l2 : list Z) : bool :=
  match l1, l2 with
  | [], _ => true
  | x :: l1', y :: l2' => Z.eqb x y && std_equal l1' l2'
  | _ :: _, [] => false
  end.

(** [lhs.deterministic == rhs.deterministic &&
     std::equal(std::begin(lhs.state), std::end(lhs.state),
                std::begin(rhs.state))] *)
Definition state_eq (lhs rhs : xoshiro_state) : bool :=
  Bool.eqb (deterministic lhs) (deterministic rhs)
  && std_equal (state lhs) (state rhs).

(** [!(lhs == rhs)] *)
Definition state_ne (lhs rhs : xoshiro_state) : bool :=
  negb (state_eq lhs rhs).

(** ** r/random.hpp: the bytes of a state *)

Definition byte_of_Z (z : Z) : byte :=
  match Byte.of_N (Z.to_N z) with
  | Some b => b
  | None => x00
  end.

(** The [w] bytes of one integer, as [memcpy] reads them on a
    little-endian host. *)
Fixpoint le_bytes (w : nat) (x : Z) : list byte :=
  match w with
  | O => []
  | S w' => byte_of_Z (x mod 256) :: le_bytes w' (x / 256)
  end.

(** [std::memcpy(RAW(r_state), state.data(), len)] with
    [len = sizeof(int_type) * state.size()]: the integers of [state], one
    after the other. *)
Definition pack (w : nat) (words : list Z) : list byte :=
  flat_map (le_bytes w) words.

(** ** r/random.hpp: algorithm_name *)

(** The generator types [algorithm_name] knows by name; any other type
    is [unlisted_type]. *)
Inductive rng_state_type : Type :=
| xoshiro128plus | xoshiro128plusplus | xoshiro128starstar
| xoroshiro128plus | xoroshiro128plusplus | xoroshiro128starstar
| xoshiro256plus | xoshiro256plusplus | xoshiro256starstar
| xoshiro512plus | xoshiro512plusplus | xoshiro512starstar
| unlisted_type.

(** [std::string ret; if (std::is_same<T, xoshiro128plus>::value) ... return ret;] *)
Definition algorithm_name (T : rng_state_type) : string :=
  match T with
  | xoshiro128plus => "xoshiro128plus"
  | xoshiro128plusplus => "xoshiro128plusplus"
  | xoshiro128starstar => "xoshiro128starstar"
  | xoroshiro128plus => "xoroshiro128plus"
  | xoroshiro128plusplus => "xoroshiro128plusplus"
  | xoroshiro128starstar => "xoroshiro128starstar"
  | xoshiro256plus => "xoshiro256plus"
  | xoshiro256plusplus => "xoshiro256plusplus"
  | xoshiro256starstar => "xoshiro256starstar"
  | xoshiro512plus => "xoshiro512plus"
  | xoshiro512plusplus => "xoshiro512plusplus"
  | xoshiro512starstar => "xoshiro512starstar"
  | unlisted_type => ""
  end.

(** ** r/random.hpp: the rng pointer object

    The R object that [rng_pointer_get] and [rng_pointer_sync] work on:
    its field [algorithm], and in its private environment the external
    pointer [ptr_] (null after the object was unserialised), the flag
    [is_current_] and the raw vector [state_].  The generators live in a
    store [list prng]; a pointer is a place in it, so that the pointer
    handed to the caller and the one kept in [ptr_] name one generator.
    The class [prng] (prng.hpp) is not part of these sources: its
    constructor, [size()] and [export_state()] are variables. *)
Record rng_pointer : Type := mk_rng_pointer {
  algorithm : string;
  ptr_ : option nat;
  is_current_ : bool;
  state_ : list byte
}.

(** A call returns, stops with an R error ([cpp11::stop]), or
    dereferences a null or dangling pointer. *)
Inductive r_result (A : Type) : Type :=
| r_value (a : A)
| r_stop (message : string)
| r_undefined.
Arguments r_value {A} a.
Arguments r_stop {A} message.
Arguments r_undefined {A}.

(** [static_cast<int>(...)] of a [size_t]. *)
Definition to_int (z : Z) : Z := (z + 2 ^ 31) mod 2 ^ 32 - 2 ^ 31.

Definition print_d (z : Z) : string := NilZero.string_of_int (Z.to_int z).

Definition incorrect_type_message (given expected : string) : string :=
  "Incorrect rng type: given " ++ given ++ ", expected " ++ expected.

Definition not_synced_message : string :=
  "Can't unserialise an rng pointer that was not synced".

Definition too_few_message (n_streams size : Z) : string :=
  "Requested a rng with " ++ print_d n_streams
  ++ " streams but only have " ++ print_d (to_int size).

Section RngPointer.
Variable prng : Type.
Variable new_prng : Z -> list Z -> prng.
Variable prng_size : prng -> Z.
Variable export_state : prng -> list Z.
Variable T : rng_state_type.
Variable int_t : int_type.
Variable N : Z.

(** [rng_state_vector]: [auto state = rng->export_state();
    size_t len = sizeof(int_type) * state.size(); ... memcpy ...] *)
Definition rng_state_vector (rng : prng) : list byte :=
  pack (Z.to_nat (sizeof int_t)) (export_state rng).

(** The part of [rng_pointer_get] under [if (rng == nullptr)]: the
    generator is built again from [state_], unless that is stale. *)
Definition rng_pointer_restore (h : list prng) (obj : rng_pointer)
  : r_result (list prng * rng_pointer * nat) :=
  match ptr_ obj with
  | Some a => r_value (h, obj, a)
  | None =>
      if negb (is_current_ obj) then r_stop not_synced_message
      else
        match raw_seed int_t N (state_ obj) with
        | inl message => r_stop message
        | inr seed =>
            let n_streams_orig := Z.of_nat (List.length seed) / N in
            let a := List.length h in
            r_value (h ++ [new_prng n_streams_orig seed],
                     mk_rng_pointer (algorithm obj) (Some a)
                                    (is_current_ obj) (state_ obj),
                     a)
        end
  end.

(** [rng_pointer_get(obj, n_streams)]: the store and the object as the
    call leaves them, and what the call gives. *)
Definition rng_pointer_get (h : list prng) (obj : rng_pointer)
           (n_streams : Z) : list prng * rng_pointer * r_result nat :=
  let algorithm_given := algorithm obj in
  let algorithm_expected := algorithm_name T in
  if negb (String.eqb algorithm_given algorithm_expected) then
    (h, obj,
     r_stop (incorrect_type_message algorithm_given algorithm_expected))
  else
    match rng_pointer_restore h obj with
    | r_stop message => (h, obj, r_stop message)
    | r_undefined => (h, obj, r_undefined)
    | r_value (h1, obj1, a) =>
        let dirty :=
          mk_rng_pointer (algorithm obj1) (ptr_ obj1) false (state_ obj1) in
        if 0 <? n_streams then
          match nth_error h1 a with
          | None => (h1, obj1, r_undefined)
          | Some rng =>
              if to_int (prng_size rng) <? n_streams then
                (h1, obj1,
                 r_stop (too_few_message n_streams (prng_size rng)))
              else (h1, dirty, r_value a)
          end
        else (h1, dirty, r_value a)
    end.

(** [rng_pointer_sync(obj)]:
    [if (!is_current_) { state_ = rng_state_vector(ptr.get());
                         is_current_ = true; }] *)
Definition rng_pointer_sync (h : list prng) (obj : rng_pointer)
  : r_result rng_pointer :=
  if negb (is_current_ obj) then
    match ptr_ obj with
    | None => r_undefined
    | Some a =>
        match nth_error h a with
        | None => r_undefined
        | Some rng =>
            r_value (mk_rng_pointer (algorithm obj) (ptr_ obj) true
                                    (rng_state_vector rng))
        end
    end
  else r_value obj.

End RngPointer.

Ltac split_all :=
  simpl; repeat match goal with |- _ /\ _ => split end; auto.

(** * Properties *)

(** ** Comparisons of floating-point values *)

Lemma leb_zero_not_ltb (x : D.real_type) :
  (D.zero <=? x)%real = true -> (x <? D.zero)%real = false.
Proof.
  destruct x as [s | s | | s m e]; try destruct s; simpl;
    intros H; try reflexivity; discriminate H.
Qed.

Lemma eqb_zero_inv (x : D.real_type) :
  (x =? D.zero)%real = true -> exists s, x = S754_zero s.
Proof.
  destruct x as [s | s | | s m e]; try destruct s; simpl; intros H;
    try discriminate H; eauto.
Qed.

Lemma mul_zero_finite_l (x y : D.real_type) :
  (x =? D.zero)%real = true -> is_finite y = true ->
  (D.zero =? x * y)%real = true.
Proof.
  intros Hx Hy. apply eqb_zero_inv in Hx. destruct Hx as [s ->].
  destruct y as [t | t | | t m e]; try discriminate Hy; reflexivity.
Qed.

Lemma mul_zero_finite_r (x y : D.real_type) :
  (y =? D.zero)%real = true -> is_finite x = true ->
  (D.zero =? x * y)%real = true.
Proof.
  intros Hy Hx. apply eqb_zero_inv in Hy. destruct Hy as [s ->].
  destruct x as [t | t | | t m e]; try discriminate Hx; reflexivity.
Qed.

(** ** The monad *)

Lemma bind_Returned {A B} (m : M A) (k : A -> M B) s a s' :
  m s = Returned a s' -> bind m k s = k a s'.
Proof. unfold bind. intros ->. reflexivity. Qed.

Lemma bind_Threw {A B} (m : M A) (k : A -> M B) s what s' :
  m s = Threw what s' -> bind m k s = Threw what s'.
Proof. unfold bind. intros ->. reflexivity. Qed.

Lemma bind_Trapped {A B} (m : M A) (k : A -> M B) s printed :
  m s = Trapped printed -> bind m k s = Trapped printed.
Proof. unfold bind. intros ->. reflexivity. Qed.

Lemma fatal_error_bind {A B} b message (k : A -> M B) s :
  bind (fatal_error b message) k s = fatal_error b message s.
Proof. destruct b; reflexivity. Qed.

Section SamplerFacts.
Context {P : Platform}.

Lemma random_real_eq (s : xoshiro_state) :
  random_real s = Returned (int_to_real (fst (next s))) (snd (next s)).
Proof. unfold random_real. destruct (next s); reflexivity. Qed.

(** *** gamma_validate *)

Lemma gamma_validate_passes b shape scale s :
  (shape <? D.zero)%real = false -> (scale <? D.zero)%real = false ->
  gamma_validate b shape scale s = Returned tt s.
Proof. unfold gamma_validate. intros -> ->. reflexivity. Qed.

Lemma gamma_validate_rejects b shape scale s :
  (shape <? D.zero)%real = true \/ (scale <? D.zero)%real = true ->
  gamma_validate b shape scale s
  = fatal_error b (gamma_message shape scale) s.
Proof.
  unfold gamma_validate. intros [-> | ->]; [reflexivity |].
  rewrite orb_true_r. reflexivity.
Qed.

Lemma fatal_error_failed {A} b message s :
  failed (@fatal_error A b message s) <> None.
Proof. destruct b; discriminate. Qed.

Lemma gamma_scale_rejects b fuel shape scale s :
  (shape <? D.zero)%real = true \/ (scale <? D.zero)%real = true ->
  gamma_scale b fuel shape scale s
  = fatal_error b (gamma_message shape scale) s.
Proof.
  intros H. unfold gamma_scale, bind.
  rewrite (gamma_validate_rejects b _ _ s H). destruct b; reflexivity.
Qed.

Lemma gamma_scale_validated b fuel shape scale s :
  (shape <? D.zero)%real = false -> (scale <? D.zero)%real = false ->
  gamma_scale b fuel shape scale s
  = (if ((shape =? D.zero) || (scale =? D.zero))%real then ret D.zero
     else
       det <- get_deterministic ;;
       if det then ret (gamma_deterministic shape scale)
       else if (shape <? D.one)%real then
         g <- gamma_small fuel shape ;; ret (g * scale)%real
       else if (shape =? D.one)%real then exponential_mean scale
       else g <- gamma_large fuel shape ;; ret (g * scale)%real) s.
Proof.
  intros Hs Hc. unfold gamma_scale.
  rewrite (bind_Returned _ _ s tt s); [reflexivity |].
  now apply gamma_validate_passes.
Qed.

(** In deterministic mode a validated call returns without touching
    the generator, whatever the fuel. *)
Lemma gamma_scale_in_deterministic_mode b fuel shape scale s :
  deterministic s = true ->
  (shape <? D.zero)%real = false -> (scale <? D.zero)%real = false ->
  gamma_scale b fuel shape scale s
  = Returned (if ((shape =? D.zero) || (scale =? D.zero))%real
              then D.zero else (shape * scale)%real) s.
Proof.
  intros Hd Hs Hc. rewrite gamma_scale_validated by assumption.
  destruct ((shape =? D.zero) || (scale =? D.zero))%real; [reflexivity |].
  unfold bind, get_deterministic. rewrite Hd. reflexivity.
Qed.

End SamplerFacts.

(** ** Order facts *)

Lemma SFcompare_antisym (x y : spec_float) :
  SFcompare y x = option_map CompOpp (SFcompare x y).
Proof.
  destruct x as [s | s | | s m e], y as [t | t | | t n f];
    try destruct s; try destruct t; try reflexivity; simpl;
    assert (Hp : Pos.compare_cont Eq n m
                 = CompOpp (Pos.compare_cont Eq m n))
      by (now rewrite Pos.compare_cont_antisym);
    rewrite (Z.compare_antisym e f);
    destruct (e ?= f); simpl; rewrite ?Hp, ?CompOpp_involutive;
    reflexivity.
Qed.

Lemma ltb_asym (x y : D.real_type) :
  (x <? y)%real = true -> (y <? x)%real = false /\ (y =? x)%real = false.
Proof.
  unfold D.ltb, D.eqb, SFltb, SFeqb. rewrite (SFcompare_antisym x y).
  destruct (SFcompare x y) as [[] |]; simpl; intros H;
    try discriminate H; split; reflexivity.
Qed.

Lemma eqb_not_ltb (x y : D.real_type) :
  (x =? y)%real = true -> (x <? y)%real = false.
Proof.
  unfold D.ltb, D.eqb, SFltb, SFeqb.
  destruct (SFcompare x y) as [[] |]; intros H; try discriminate H;
    reflexivity.
Qed.

Lemma eqb_one_not_zero (x : D.real_type) :
  (x =? D.one)%real = true -> (x =? D.zero)%real = false.
Proof.
  destruct x as [s | s | | s m e]; try destruct s; simpl; intros H;
    try discriminate H; reflexivity.
Qed.

Lemma bind_assoc {A B C} (m : M A) (k : A -> M B) (h : B -> M C) s :
  bind (bind m k) h s = bind m (fun x => bind (k x) h) s.
Proof. unfold bind. destruct (m s); reflexivity. Qed.

Lemma bind_ext {A B} (m : M A) (k k' : A -> M B) s :
  (forall a s', k a s' = k' a s') -> bind m k s = bind m k' s.
Proof. intros H. unfold bind. destruct (m s); auto. Qed.

Section Claims.
Context {P : Platform}.

(** C2 (as amended).  [gamma_validate] raises exactly when
    [shape < 0] or [scale < 0]; a NaN parameter is therefore not
    rejected.  [gamma_scale] and [gamma_rate] (on the derived scale
    [1 / rate]) run it before anything else: a rejected call throws on
    the host, with the generator untouched, and traps on the device,
    whatever the fuel.  Every [shape >= 0] and [scale >= 0] passes, and
    [gamma(shape = -1, scale = 1)] fails on both backends. *)
Theorem gamma_validate_raises_iff_negative
        (b : backend) (fuel : nat) (shape scale rate : D.real_type)
        (s : xoshiro_state) :
  (failed (gamma_validate b shape scale s) <> None
   <-> (shape <? D.zero)%real = true \/ (scale <? D.zero)%real = true)
  /\ ((shape <? D.zero)%real = true \/ (scale <? D.zero)%real = true ->
      gamma_scale b fuel shape scale s
      = match b with
        | Host => Threw (gamma_message shape scale) s
        | Device => Trapped (gamma_message shape scale ++ newline)
        end)
  /\ ((shape <? D.zero)%real = true
      \/ (D.one / rate <? D.zero)%real = true ->
      gamma_rate b fuel shape rate s
      = match b with
        | Host => Threw (gamma_message shape (D.one / rate)%real) s
        | Device =>
            Trapped (gamma_message shape (D.one / rate)%real ++ newline)
        end)
  /\ ((D.zero <=? shape)%real = true -> (D.zero <=? scale)%real = true ->
      gamma_validate b shape scale s = Returned tt s)
  /\ gamma_scale Host fuel minus_one D.one s
     = Threw (gamma_message minus_one D.one) s
  /\ gamma_scale Device fuel minus_one D.one s
     = Trapped (gamma_message minus_one D.one ++ newline).
Proof.
  repeat split.
  - intros Hf.
    destruct (shape <? D.zero)%real eqn:Hs; [now left |].
    destruct (scale <? D.zero)%real eqn:Hc; [now right |].
    rewrite gamma_validate_passes in Hf by assumption. now elim Hf.
  - intros H. rewrite gamma_validate_rejects by assumption.
    apply fatal_error_failed.
  - intros H. rewrite gamma_scale_rejects by assumption.
    destruct b; reflexivity.
  - intros H. unfold gamma_rate. cbv zeta. unfold bind at 1.
    rewrite gamma_validate_rejects by assumption.
    destruct b; reflexivity.
  - intros Hs Hc.
    apply gamma_validate_passes; now apply leb_zero_not_ltb.
Qed.

(** C3 (as amended).  On the host backend, [cauchy] on a state whose
    [deterministic] flag is set always throws, for every location and
    scale, and leaves the generator untouched.  On the device backend
    the test is compiled out: the flag is not read, one uniform is
    drawn and [location + scale * tan(pi * u)] is returned. *)
Theorem cauchy_deterministic
        (location scale : D.real_type) (s : xoshiro_state)
        (Hdet : deterministic s = true) :
  cauchy Host location scale s = Threw cauchy_message s
  /\ cauchy Device location scale s
     = Returned (location
                 + scale * tan (M_PI * int_to_real (fst (next s))))%real
                (snd (next s)).
Proof.
  split.
  - unfold cauchy, bind, get_deterministic. rewrite Hdet. reflexivity.
  - unfold cauchy.
    rewrite (bind_Returned _ _ s tt s) by reflexivity.
    rewrite (bind_Returned _ _ s _ _ (random_real_eq s)). reflexivity.
Qed.

(** C10.  [cauchy] never looks at its parameters before using them: in
    stochastic mode, on either backend and for every location and
    scale (zero, negative, infinite or NaN alike), it takes exactly one
    word from the generator, converts it to the uniform [u] and returns
    [location + scale * tan(pi * u)]; it raises nothing. *)
Theorem cauchy_stochastic
        (b : backend) (location scale : D.real_type) (s : xoshiro_state)
        (Hdet : deterministic s = false) :
  cauchy b location scale s
  = Returned (location
              + scale * tan (M_PI * int_to_real (fst (next s))))%real
             (snd (next s)).
Proof.
  unfold cauchy.
  rewrite (bind_Returned _ _ s tt s).
  - rewrite (bind_Returned _ _ s _ _ (random_real_eq s)). reflexivity.
  - destruct b; [| reflexivity].
    unfold bind, get_deterministic. rewrite Hdet. reflexivity.
Qed.

(** C4 (as amended).  For every [shape >= 0] and [scale >= 0],
    [gamma_scale] on a deterministic state returns, on either backend
    and whatever the fuel: the product [shape * scale] itself when
    neither parameter is zero, and [0] when one is, which equals
    [shape * scale] whenever both are finite.  In particular
    [gamma(3, 2)] is exactly [6]. *)
Theorem gamma_scale_deterministic_mean
        (b : backend) (fuel : nat) (shape scale : D.real_type)
        (s : xoshiro_state)
        (Hdet : deterministic s = true)
        (Hshape : (D.zero <=? shape)%real = true)
        (Hscale : (D.zero <=? scale)%real = true) :
  (exists r : D.real_type,
      gamma_scale b fuel shape scale s = Returned r s
      /\ (((shape =? D.zero) || (scale =? D.zero))%real = false ->
          r = (shape * scale)%real)
      /\ (((shape =? D.zero) || (scale =? D.zero))%real = true ->
          r = D.zero
          /\ (is_finite shape && is_finite scale = true ->
              (r =? shape * scale)%real = true)))
  /\ gamma_scale b fuel (D.of_uint 3) (D.of_uint 2) s
     = Returned (D.of_uint 6) s.
Proof.
  split.
  - rewrite gamma_scale_in_deterministic_mode;
      try assumption; try now apply leb_zero_not_ltb.
    eexists. split; [reflexivity |].
    destruct ((shape =? D.zero) || (scale =? D.zero))%real eqn:Hz.
    + split; [discriminate |]. intros _. split; [reflexivity |].
      intros Hfin. apply andb_true_iff in Hfin. destruct Hfin as [Hf1 Hf2].
      apply orb_true_iff in Hz. destruct Hz as [Hz | Hz].
      * now apply mul_zero_finite_l.
      * now apply mul_zero_finite_r.
    + split; [reflexivity | discriminate].
  - rewrite gamma_scale_in_deterministic_mode by (assumption || reflexivity).
    reflexivity.
Qed.

(** C8.  For every valid shape and scale ([shape >= 0], [scale >= 0]),
    [gamma_scale] on a deterministic state draws nothing: it returns,
    and the generator (its state array and its flag) is after the call
    exactly what it was before. *)
Theorem gamma_scale_deterministic_frame
        (b : backend) (fuel : nat) (shape scale : D.real_type)
        (s : xoshiro_state)
        (Hdet : deterministic s = true)
        (Hshape : (D.zero <=? shape)%real = true)
        (Hscale : (D.zero <=? scale)%real = true) :
  exists (r : D.real_type) (s' : xoshiro_state),
    gamma_scale b fuel shape scale s = Returned r s'
    /\ state s' = state s /\ s' = s.
Proof.
  rewrite gamma_scale_in_deterministic_mode;
    try assumption; try now apply leb_zero_not_ltb.
  eexists. exists s. repeat split.
Qed.

(** C5.  In stochastic mode, with parameters that pass validation,
    [gamma_scale] dispatches in this order: a zero shape or scale gives
    [0] and draws nothing; otherwise [0 < shape < 1] draws one uniform
    [u], runs the large-shape generator at [shape + 1] and returns its
    value times [u^(1/shape)] times [scale]; [shape == 1] is
    [exponential_mean] with mean [scale]; and [shape > 1] is the
    large-shape rejection loop at [shape], times [scale]. *)
Theorem gamma_scale_dispatch
        (b : backend) (fuel : nat) (shape scale : D.real_type)
        (s : xoshiro_state)
        (Hdet : deterministic s = false)
        (Hshape : (shape <? D.zero)%real = false)
        (Hscale : (scale <? D.zero)%real = false) :
  (((shape =? D.zero) || (scale =? D.zero))%real = true ->
   gamma_scale b fuel shape scale s = Returned D.zero s)
  /\ ((scale =? D.zero)%real = false ->
      ((D.zero <? shape) && (shape <? D.one))%real = true ->
      gamma_scale b fuel shape scale s
      = (u <- random_real ;;
         g <- gamma_large fuel (shape + D.one)%real ;;
         ret (g * pow u (D.one / shape) * scale)%real) s)
  /\ ((scale =? D.zero)%real = false ->
      (shape =? D.one)%real = true ->
      gamma_scale b fuel shape scale s = exponential_mean scale s)
  /\ ((scale =? D.zero)%real = false ->
      (D.one <? shape)%real = true ->
      gamma_scale b fuel shape scale s
      = (g <- gamma_large fuel shape ;; ret (g * scale)%real) s).
Proof.
  rewrite gamma_scale_validated by assumption.
  repeat split.
  - intros ->. reflexivity.
  - intros Hc H. apply andb_true_iff in H. destruct H as [H0 H1].
    apply ltb_asym in H0. destruct H0 as [_ H0].
    rewrite H0, Hc. simpl. unfold bind at 1, get_deterministic.
    rewrite Hdet, H1. unfold gamma_small.
    rewrite bind_assoc. apply bind_ext. intros u s1.
    rewrite bind_assoc. apply bind_ext. intros g s2. reflexivity.
  - intros Hc H1. rewrite (eqb_one_not_zero _ H1), Hc. simpl.
    unfold bind at 1, get_deterministic.
    rewrite Hdet, (eqb_not_ltb _ _ H1), H1. reflexivity.
  - intros Hc H1. pose proof (ltb_asym _ _ H1) as [Hlt Heq].
    assert (Hz : (shape =? D.zero)%real = false).
    { destruct shape as [t | t | | t m e]; try destruct t;
        try reflexivity; discriminate H1. }
    rewrite Hz, Hc. simpl. unfold bind at 1, get_deterministic.
    rewrite Hdet, Hlt, Heq. reflexivity.
Qed.

End Claims.

(** ** raw_seed *)

Lemma unpack_length (n w : nat) (bs : list byte) :
  List.length (unpack n w bs) = n.
Proof.
  revert bs. induction n as [| n IH]; intros bs; simpl;
    [reflexivity | now rewrite IH].
Qed.

Lemma sizeof_pos (t : int_type) : 0 < sizeof t.
Proof. destruct t; reflexivity. Qed.

Lemma byte_range (b : byte) : 0 <= Z.of_N (Byte.to_N b) < 256.
Proof. pose proof (Byte.to_N_bounded b). lia. Qed.

Lemma le_word_range (bs : list byte) :
  0 <= le_word bs < 256 ^ Z.of_nat (List.length bs).
Proof.
  induction bs as [| b bs IH]; [simpl; lia |].
  cbn [le_word List.length]. rewrite Nat2Z.inj_succ, Z.pow_succ_r by lia.
  pose proof (byte_range b). lia.
Qed.

Lemma word_bound (t : int_type) :
  256 ^ Z.of_nat (Z.to_nat (sizeof t)) = 2 ^ (8 * sizeof t).
Proof. destruct t; reflexivity. Qed.

(** Byte [j] of a word is digit [j] of its value in base 256. *)
Lemma le_word_digit (bs : list byte) :
  forall j : nat, (j < List.length bs)%nat ->
  (le_word bs / 256 ^ Z.of_nat j) mod 256
  = Z.of_N (Byte.to_N (nth j bs x00)).
Proof.
  induction bs as [| b bs IH]; intros j Hj; [simpl in Hj; lia |].
  pose proof (byte_range b) as Hb. cbn [le_word].
  destruct j as [| j].
  - cbn [nth]. change (256 ^ Z.of_nat 0) with 1. rewrite Z.div_1_r.
    rewrite (Z.mul_comm 256), Z.mod_add by lia.
    apply Z.mod_small. exact Hb.
  - cbn [nth]. simpl in Hj.
    rewrite Nat2Z.inj_succ, Z.pow_succ_r by lia.
    rewrite <- Z.div_div by (try apply Z.pow_pos_nonneg; lia).
    replace ((Z.of_N (Byte.to_N b) + 256 * le_word bs) / 256)
      with (le_word bs).
    + apply IH. lia.
    + rewrite (Z.mul_comm 256), Z.div_add by lia.
      rewrite (Z.div_small _ 256) by exact Hb. lia.
Qed.

(** Integer [i] of the result is read from the [w] bytes at [i * w]. *)
Lemma unpack_nth (w : nat) :
  forall (n : nat) (bs : list byte) (i : nat), (i < n)%nat ->
  nth i (unpack n w bs) 0 = le_word (firstn w (skipn (i * w) bs)).
Proof.
  induction n as [| n IH]; intros bs i Hi; [lia |].
  cbn [unpack]. destruct i as [| i].
  - reflexivity.
  - cbn [nth]. rewrite IH by lia. rewrite skipn_skipn.
    replace (i * w + w)%nat with (S i * w)%nat by (simpl; lia).
    reflexivity.
Qed.

(** C9.  With [len = sizeof(int_type) * size()], [raw_seed] stops with
    the message "Expected raw vector of length as multiple of [len] for
    'seed'" when the buffer is empty or its length is not a multiple of
    [len].  For a buffer whose length is a positive multiple of [len] it
    returns [length / sizeof(int_type)] integers, which is [size()]
    integers for each of [length / len] streams, and these are the
    buffer's bytes packed: integer [i] fits [int_type] and its byte [j]
    (the digit of [256^j], as [memcpy] lays it out on a little-endian
    host) is the buffer's byte [i * sizeof(int_type) + j]. *)
Theorem raw_seed_checks_length
        (t : int_type) (N : Z) (seed_data : list byte) (HN : 0 < N) :
  let len := sizeof t * N in
  let size := Z.of_nat (List.length seed_data) in
  (size = 0 \/ size mod len <> 0 ->
   raw_seed t N seed_data
   = inl ("Expected raw vector of length as multiple of "
          ++ NilZero.string_of_int (Z.to_int len) ++ " for 'seed'")%string)
  /\ (0 < size -> size mod len = 0 ->
      exists seed : list Z,
        raw_seed t N seed_data = inr seed
        /\ Z.of_nat (List.length seed) = size / sizeof t
        /\ Z.of_nat (List.length seed) = N * (size / len)
        /\ Z.of_nat (List.length seed) / N = size / len
        /\ (forall i : nat, (i < List.length seed)%nat ->
              0 <= nth i seed 0 < 2 ^ (8 * sizeof t)
              /\ forall j : nat, (j < Z.to_nat (sizeof t))%nat ->
                   (nth i seed 0 / 256 ^ Z.of_nat j) mod 256
                   = Z.of_N (Byte.to_N
                               (nth (i * Z.to_nat (sizeof t) + j)
                                    seed_data x00)))).
Proof.
  intros len size. pose proof (sizeof_pos t) as Hw.
  assert (Hlen : 0 < len) by (unfold len; nia).
  split.
  - intros H. unfold raw_seed, raw_seed_message. fold len. fold size.
    destruct H as [H | H].
    + rewrite H. reflexivity.
    + apply Z.eqb_neq in H. rewrite H. simpl. now rewrite orb_true_r.
  - intros Hpos Hmod. unfold raw_seed. fold len. fold size.
    assert (Hz : (size =? 0) = false) by (apply Z.eqb_neq; lia).
    rewrite Hz. apply Z.eqb_eq in Hmod as Hm. rewrite Hm. simpl.
    eexists. split; [reflexivity |].
    rewrite unpack_length.
    assert (Hq : 0 <= size / sizeof t) by (apply Z.div_pos; lia).
    rewrite Z2Nat.id by assumption.
    assert (Hdiv : size / sizeof t = N * (size / len)).
    { apply Z.div_exact in Hmod; [| lia].
      rewrite Hmod at 1. unfold len.
      rewrite <- Z.mul_assoc, Z.mul_comm, Z.div_mul by lia. reflexivity. }
    split; [reflexivity |]. split; [exact Hdiv |].
    split; [rewrite Hdiv, Z.mul_comm, Z.div_mul by lia; reflexivity |].
    intros i Hi. rewrite unpack_nth by exact Hi.
    set (w := Z.to_nat (sizeof t)) in *.
    assert (Hfull : (i * w + w <= List.length seed_data)%nat).
    { assert (Hsz : size = size / sizeof t * sizeof t).
      { rewrite Hdiv. apply Z.div_exact in Hmod; [| lia].
        rewrite Hmod at 1. unfold len. lia. }
      unfold size in Hsz at 1. unfold w. nia. }
    assert (Hslice : List.length (firstn w (skipn (i * w) seed_data)) = w)
      by (rewrite length_firstn, length_skipn; lia).
    split.
    + pose proof (le_word_range (firstn w (skipn (i * w) seed_data)))
        as Hr.
      rewrite Hslice in Hr. unfold w in Hr. rewrite word_bound in Hr.
      exact Hr.
    + intros j Hj. rewrite le_word_digit by (rewrite Hslice; exact Hj).
      rewrite nth_firstn, nth_skipn.
      apply Nat.ltb_lt in Hj. rewrite Hj. reflexivity.
Qed.

(** ** Box-Muller *)

Section BoxMuller.
Context {P : Platform}.

Lemma advance_S (k : nat) (s : xoshiro_state) :
  advance (S k) s = advance k (snd (next s)).
Proof.
  unfold advance. induction k as [| k IH]; [reflexivity |].
  simpl in *. now rewrite IH.
Qed.

Lemma nth_uniform_S (k : nat) (s : xoshiro_state) :
  nth_uniform (S k) s = nth_uniform k (snd (next s)).
Proof. unfold nth_uniform. now rewrite advance_S. Qed.

Lemma box_muller_draws_step (fuel : nat) (s : xoshiro_state) :
  box_muller_draws (S fuel) s
  = if (nth_uniform 0 s <=? epsilon)%real
    then box_muller_draws fuel (advance 2 s)
    else Returned (nth_uniform 0 s, nth_uniform 1 s) (advance 2 s).
Proof.
  simpl box_muller_draws.
  rewrite (bind_Returned _ _ s _ _ (random_real_eq s)).
  rewrite (bind_Returned _ _ _ _ _ (random_real_eq (snd (next s)))).
  change (nth_uniform 0 s) with (int_to_real (fst (next s))).
  destruct (int_to_real (fst (next s)) <=? epsilon)%real; reflexivity.
Qed.

Lemma accepts_at_S (n : nat) (s : xoshiro_state) :
  accepts_at (S n) s ->
  (nth_uniform 0 s <=? epsilon)%real = true
  /\ accepts_at n (advance 2 s).
Proof.
  intros [Hrej Hacc]. split; [apply (Hrej O); lia |].
  assert (Hshift : forall k, nth_uniform k (advance 2 s)
                             = nth_uniform (S (S k)) s).
  { intros k. rewrite !nth_uniform_S. reflexivity. }
  split.
  - intros i Hi. rewrite Hshift.
    replace (S (S (2 * i))) with (2 * S i)%nat by lia.
    apply Hrej. lia.
  - rewrite Hshift.
    replace (S (S (2 * n))) with (2 * S n)%nat by lia. exact Hacc.
Qed.

Lemma advance_add (j k : nat) (s : xoshiro_state) :
  advance (j + k) s = advance j (advance k s).
Proof. unfold advance. apply Nat.iter_add. Qed.

Lemma nth_uniform_advance (k j : nat) (s : xoshiro_state) :
  nth_uniform k (advance j s) = nth_uniform (k + j) s.
Proof. unfold nth_uniform. now rewrite advance_add. Qed.

Lemma box_muller_draws_accepts (n : nat) :
  forall (fuel : nat) (s : xoshiro_state),
    accepts_at n s -> (n < fuel)%nat ->
    box_muller_draws fuel s
    = Returned (nth_uniform (2 * n) s, nth_uniform (2 * n + 1) s)
               (advance (2 * n + 2) s).
Proof.
  induction n as [| n IH]; intros fuel s Hacc Hfuel;
    (destruct fuel as [| fuel]; [lia |]);
    rewrite box_muller_draws_step.
  - destruct Hacc as [_ Hacc]. simpl in Hacc. rewrite Hacc. reflexivity.
  - apply accepts_at_S in Hacc. destruct Hacc as [H0 Hacc].
    rewrite H0. rewrite (IH fuel _ Hacc) by lia.
    rewrite !nth_uniform_advance, <- advance_add.
    replace (2 * S n)%nat with (2 * n + 2)%nat by lia.
    replace (2 * n + 2 + 1)%nat with (2 * n + 1 + 2)%nat by lia.
    reflexivity.
Qed.

Lemma box_muller_draws_rejects (n : nat) :
  forall (fuel : nat) (s : xoshiro_state),
    accepts_at n s -> (fuel <= n)%nat ->
    box_muller_draws fuel s = OutOfFuel.
Proof.
  induction n as [| n IH]; intros fuel s Hacc Hfuel;
    (destruct fuel as [| fuel]; [reflexivity |]); [lia |].
  rewrite box_muller_draws_step.
  apply accepts_at_S in Hacc. destruct Hacc as [H0 Hacc].
  rewrite H0. apply IH; [assumption | lia].
Qed.

Lemma box_muller_draws_sound (fuel : nat) :
  forall (s : xoshiro_state),
    match box_muller_draws fuel s with
    | Returned (u1, u2) s' =>
        exists n, (n < fuel)%nat /\ accepts_at n s
                  /\ u1 = nth_uniform (2 * n) s
                  /\ u2 = nth_uniform (2 * n + 1) s
                  /\ s' = advance (2 * n + 2) s
    | OutOfFuel => True
    | _ => False
    end.
Proof.
  induction fuel as [| fuel IH]; intros s; [exact I |].
  rewrite box_muller_draws_step.
  destruct (nth_uniform 0 s <=? epsilon)%real eqn:H0.
  - specialize (IH (advance 2 s)).
    destruct (box_muller_draws fuel (advance 2 s))
      as [[u1 u2] s' | | |]; try exact IH.
    destruct IH as (n & Hn & [Hrej Hacc] & -> & -> & ->).
    assert (Hshift : forall k, nth_uniform k (advance 2 s)
                               = nth_uniform (S (S k)) s).
    { intros k. rewrite !nth_uniform_S. reflexivity. }
    exists (S n). split; [lia |]. split; [split |].
    + intros [| i] Hi; [exact H0 |].
      replace (2 * S i)%nat with (S (S (2 * i))) by lia.
      rewrite <- Hshift. apply Hrej. lia.
    + replace (2 * S n)%nat with (S (S (2 * n))) by lia.
      rewrite <- Hshift. exact Hacc.
    + rewrite !nth_uniform_advance, <- advance_add.
      replace (2 * S n)%nat with (2 * n + 2)%nat by lia.
      replace (2 * n + 2 + 1)%nat with (2 * n + 1 + 2)%nat by lia.
      repeat split.
  - exists O. split; [lia |]. split; [split |].
    + intros i Hi. lia.
    + exact H0.
    + repeat split.
Qed.

End BoxMuller.

(** ** Rounding: the shape of a rounded result *)

Lemma digits2_pos_bounds (p : positive) :
  2 ^ (Zpos (digits2_pos p) - 1) <= Zpos p < 2 ^ Zpos (digits2_pos p).
Proof.
  induction p as [p IH | p IH |]; simpl digits2_pos;
    [ | | simpl; lia];
    rewrite Pos2Z.inj_succ;
    replace (Z.succ (Zpos (digits2_pos p)) - 1)
      with (Z.succ (Zpos (digits2_pos p) - 1)) by lia;
    rewrite !Z.pow_succ_r by lia; lia.
Qed.

Lemma Zdigits2_upper (m : Z) : 0 <= m -> m < 2 ^ Zdigits2 m.
Proof.
  destruct m as [| p | p]; intros H; simpl; [lia | | lia].
  apply digits2_pos_bounds.
Qed.

Lemma Zdigits2_lower (m : Z) : 0 < m -> 2 ^ (Zdigits2 m - 1) <= m.
Proof.
  destruct m as [| p | p]; intros H; simpl; try lia.
  apply digits2_pos_bounds.
Qed.

Lemma Zdigits2_nonneg (m : Z) : 0 <= Zdigits2 m.
Proof. destruct m; simpl; lia. Qed.

Lemma shr_1_m (r : shr_record) :
  0 <= shr_m r -> shr_m (shr_1 r) = shr_m r / 2.
Proof.
  destruct r as [m r s]. simpl shr_m. intros H.
  rewrite <- Z.div2_div.
  destruct m as [| [p | p |] | p]; try reflexivity; lia.
Qed.

Lemma pow2_xO (p : positive) : 2 ^ Zpos p~0 = 2 ^ Zpos p * 2 ^ Zpos p.
Proof.
  rewrite (Pos2Z.inj_xO p).
  replace (2 * Zpos p) with (Zpos p + Zpos p) by lia.
  apply Z.pow_add_r; lia.
Qed.

Lemma pow2_xI (p : positive) :
  2 ^ Zpos p~1 = 2 * (2 ^ Zpos p * 2 ^ Zpos p).
Proof.
  rewrite (Pos2Z.inj_xI p), <- pow2_xO, (Pos2Z.inj_xO p).
  replace (2 * Zpos p + 1) with (Z.succ (2 * Zpos p)) by lia.
  apply Z.pow_succ_r; lia.
Qed.

Lemma iter_shr_1_m (p : positive) :
  forall r : shr_record,
    0 <= shr_m r ->
    shr_m (iter_pos shr_1 p r) = shr_m r / 2 ^ Zpos p.
Proof.
  induction p as [p IH | p IH |]; intros r H; simpl iter_pos;
    try assert (Hpow : 0 < 2 ^ Zpos p) by (apply Z.pow_pos_nonneg; lia).
  - assert (H1 : 0 <= shr_m (shr_1 r)).
    { rewrite shr_1_m by assumption. apply Z.div_pos; lia. }
    assert (H2 : 0 <= shr_m (iter_pos shr_1 p (shr_1 r))).
    { rewrite IH by assumption. apply Z.div_pos; lia. }
    rewrite IH, IH, shr_1_m by assumption.
    rewrite !Z.div_div by lia. rewrite pow2_xI.
    f_equal; lia.
  - assert (H1 : 0 <= shr_m (iter_pos shr_1 p r)).
    { rewrite IH by assumption. apply Z.div_pos; lia. }
    rewrite IH, IH by assumption.
    rewrite Z.div_div by lia. now rewrite pow2_xO.
  - rewrite shr_1_m by assumption. reflexivity.
Qed.

Lemma shr_m_record_of_loc (m : Z) (l : location) :
  shr_m (shr_record_of_loc m l) = m.
Proof. destruct l as [| []]; reflexivity. Qed.

Lemma round_nearest_even_bounds (m : Z) (l : location) :
  m <= round_nearest_even m l <= m + 1.
Proof.
  destruct l as [| []]; simpl; try destruct (Z.even m); lia.
Qed.

Lemma iter_xO_pow (m d : positive) :
  Zpos (Pos.iter xO m d) = Zpos m * 2 ^ Zpos d.
Proof.
  induction d as [| d IH] using Pos.peano_ind.
  - simpl. lia.
  - rewrite Pos.iter_succ, Pos2Z.inj_succ, Z.pow_succ_r by lia.
    rewrite (Pos2Z.inj_xO (Pos.iter xO m d)), IH. lia.
Qed.

Lemma shl_align_fst (m : positive) (e e' : Z) :
  Zpos (fst (shl_align m e e')) = Zpos m * 2 ^ Z.max 0 (e - e').
Proof.
  unfold shl_align. destruct (e' - e) as [| d | d] eqn:E; simpl fst.
  - replace (Z.max 0 (e - e')) with 0 by lia. simpl. lia.
  - replace (Z.max 0 (e - e')) with 0 by lia. simpl. lia.
  - replace (Z.max 0 (e - e')) with (Zpos d) by lia.
    apply iter_xO_pow.
Qed.

Lemma Zdigits2_unique (m k : Z) :
  0 < m -> 2 ^ (k - 1) <= m < 2 ^ k -> Zdigits2 m = k.
Proof.
  intros Hm [Hl Hu].
  pose proof (Zdigits2_upper m ltac:(lia)) as Hu'.
  pose proof (Zdigits2_lower m Hm) as Hl'.
  pose proof (Zdigits2_nonneg m) as Hn.
  assert (Hk : 0 < k).
  { destruct (Z_lt_le_dec 0 k) as [Hk | Hk]; [exact Hk |]. exfalso.
    destruct (Z.eq_dec k 0) as [-> | Hk0]; [simpl in Hu; lia |].
    rewrite (Z.pow_neg_r 2 k) in Hu by lia. lia. }
  assert (H1 : k - 1 < Zdigits2 m)
    by (apply (Z.pow_lt_mono_r_iff 2); lia).
  assert (H2 : Zdigits2 m - 1 < k)
    by (apply (Z.pow_lt_mono_r_iff 2); lia).
  lia.
Qed.

Lemma Zdigits2_mul_pow2 (q n : Z) :
  0 < q -> 0 <= n -> Zdigits2 (q * 2 ^ n) = Zdigits2 q + n.
Proof.
  intros Hq Hn.
  pose proof (Zdigits2_upper q ltac:(lia)) as Hu.
  pose proof (Zdigits2_lower q Hq) as Hl.
  assert (Hd : 0 < Zdigits2 q) by (destruct q; simpl; lia).
  assert (Hp : 0 < 2 ^ n) by (apply Z.pow_pos_nonneg; lia).
  apply Zdigits2_unique; [nia |].
  replace (Zdigits2 q + n - 1) with (Zdigits2 q - 1 + n) by lia.
  rewrite !Z.pow_add_r by lia. nia.
Qed.

Lemma shr_1_exact (m : Z) :
  0 <= m ->
  shr_1 (Build_shr_record (2 * m) false false)
  = Build_shr_record m false false.
Proof. destruct m as [| p | p]; intros H; [reflexivity .. | lia]. Qed.

Lemma iter_shr_1_exact (p : positive) :
  forall m : Z,
    0 <= m ->
    iter_pos shr_1 p (Build_shr_record (m * 2 ^ Zpos p) false false)
    = Build_shr_record m false false.
Proof.
  induction p as [p IH | p IH |]; intros m H; cbn [iter_pos];
    try assert (Hpow : 0 < 2 ^ Zpos p) by (apply Z.pow_pos_nonneg; lia).
  - rewrite pow2_xI.
    replace (m * (2 * (2 ^ Zpos p * 2 ^ Zpos p)))
      with (2 * (m * 2 ^ Zpos p * 2 ^ Zpos p)) by lia.
    rewrite shr_1_exact by nia. rewrite IH by nia. now apply IH.
  - rewrite pow2_xO.
    replace (m * (2 ^ Zpos p * 2 ^ Zpos p))
      with (m * 2 ^ Zpos p * 2 ^ Zpos p) by lia.
    rewrite IH by nia. now apply IH.
  - replace (m * 2 ^ 1) with (2 * m) by lia. now apply shr_1_exact.
Qed.

Section Rounding.
Variables prec emax : Z.
Hypothesis Hprec : 0 < prec.

Let emin := SpecFloat.emin prec emax.
Let fexp := SpecFloat.fexp prec emax.

Lemma fexp_ge_emin (e : Z) : emin <= fexp e.
Proof. unfold fexp, SpecFloat.fexp, emin. lia. Qed.

Lemma fexp_ge_sub (e : Z) : e - prec <= fexp e.
Proof. unfold fexp, SpecFloat.fexp. lia. Qed.

(** [shr_fexp] divides the mantissa by the power of two that brings
    the exponent up to [fexp]. *)
Lemma shr_fexp_spec (m e : Z) (l : location) :
  0 <= m ->
  shr_m (fst (shr_fexp prec emax m e l))
  = m / 2 ^ Z.max 0 (fexp (Zdigits2 m + e) - e)
  /\ snd (shr_fexp prec emax m e l) = Z.max e (fexp (Zdigits2 m + e)).
Proof.
  intros H. unfold shr_fexp, shr. fold fexp.
  destruct (fexp (Zdigits2 m + e) - e) as [| p | p] eqn:E; simpl fst;
    simpl snd.
  - rewrite shr_m_record_of_loc. simpl. rewrite Z.div_1_r. lia.
  - rewrite iter_shr_1_m by (rewrite shr_m_record_of_loc; exact H).
    rewrite shr_m_record_of_loc.
    replace (Z.max 0 (Zpos p)) with (Zpos p) by lia. lia.
  - rewrite shr_m_record_of_loc.
    replace (Z.max 0 (Zneg p)) with 0 by lia.
    simpl. rewrite Z.div_1_r. lia.
Qed.

Lemma shifted_lt (m e : Z) :
  0 <= m -> m / 2 ^ Z.max 0 (fexp (Zdigits2 m + e) - e) < 2 ^ prec.
Proof.
  intros H. set (n := Z.max 0 (fexp (Zdigits2 m + e) - e)).
  assert (Hn : 0 <= n) by (unfold n; lia).
  assert (Hd : Zdigits2 m <= n + prec).
  { pose proof (fexp_ge_sub (Zdigits2 m + e)). unfold n. lia. }
  apply Z.div_lt_upper_bound; [apply Z.pow_pos_nonneg; lia |].
  rewrite <- Z.pow_add_r by lia.
  apply Z.lt_le_trans with (2 ^ Zdigits2 m);
    [now apply Zdigits2_upper | apply Z.pow_le_mono_r; lia].
Qed.

Lemma shifted_pos (m e : Z) :
  0 < m -> emin <= e ->
  0 < m / 2 ^ Z.max 0 (fexp (Zdigits2 m + e) - e).
Proof.
  intros H He. set (n := Z.max 0 (fexp (Zdigits2 m + e) - e)).
  assert (Hn : 0 <= n) by (unfold n; lia).
  assert (Hd : n <= Zdigits2 m - 1).
  { pose proof (Zdigits2_nonneg m).
    assert (0 < Zdigits2 m) by (destruct m; simpl; lia).
    unfold n, fexp, SpecFloat.fexp. fold emin. lia. }
  apply Z.div_str_pos. split; [apply Z.pow_pos_nonneg; lia |].
  apply Z.le_trans with (2 ^ (Zdigits2 m - 1));
    [apply Z.pow_le_mono_r; lia | now apply Zdigits2_lower].
Qed.

(** A rounded result keeps the sign it was given; when finite, its
    mantissa has at most [prec] bits and its exponent is not below
    [emin], the input's exponent or [fexp] of the input's magnitude. *)
Lemma binary_round_aux_shape (s : bool) (mx ex : Z) (lx : location) :
  0 <= mx ->
  binary_round_aux prec emax s mx ex lx = S754_zero s
  \/ binary_round_aux prec emax s mx ex lx = S754_infinity s
  \/ exists m e,
      binary_round_aux prec emax s mx ex lx = S754_finite s m e
      /\ Zpos m < 2 ^ prec /\ emin <= e /\ ex <= e
      /\ fexp (Zdigits2 mx + ex) <= e.
Proof.
  intros H. unfold binary_round_aux.
  pose proof (shr_fexp_spec mx ex lx H) as [Hm1 He1].
  destruct (shr_fexp prec emax mx ex lx) as [mrs1 e1].
  simpl fst in Hm1. simpl snd in He1.
  pose proof (round_nearest_even_bounds
                (shr_m mrs1) (loc_of_shr_record mrs1)) as Hr.
  set (m1 := round_nearest_even (shr_m mrs1) (loc_of_shr_record mrs1))
    in *.
  assert (H1 : 0 <= m1).
  { assert (0 <= shr_m mrs1); [| lia].
    rewrite Hm1. apply Z.div_pos; [lia |].
    apply Z.pow_pos_nonneg; lia. }
  pose proof (shr_fexp_spec m1 e1 loc_Exact H1) as [Hm2 He2].
  pose proof (shifted_lt m1 e1 H1) as Hlt.
  destruct (shr_fexp prec emax m1 e1 loc_Exact) as [mrs2 e2].
  simpl fst in Hm2. simpl snd in He2. rewrite <- Hm2 in Hlt.
  destruct (shr_m mrs2) as [| m | m] eqn:E2.
  - now left.
  - right. destruct (e2 <=? emax - prec); [right | now left].
    exists m, e2. split; [reflexivity |].
    pose proof (fexp_ge_emin (Zdigits2 m1 + e1)).
    repeat split; lia.
  - exfalso. assert (0 <= Zneg m); [| lia].
    rewrite Hm2. apply Z.div_pos; [lia |].
    apply Z.pow_pos_nonneg; lia.
Qed.

Lemma binary_round_aux_nonzero (s : bool) (mx ex : Z) (lx : location) :
  0 < mx -> emin <= ex ->
  binary_round_aux prec emax s mx ex lx <> S754_zero s.
Proof.
  intros H He. unfold binary_round_aux.
  assert (H0 : 0 <= mx) by lia.
  pose proof (shr_fexp_spec mx ex lx H0) as [Hm1 He1].
  pose proof (shifted_pos mx ex H He) as Hp1. rewrite <- Hm1 in Hp1.
  destruct (shr_fexp prec emax mx ex lx) as [mrs1 e1].
  simpl fst in Hm1, Hp1. simpl snd in He1.
  pose proof (round_nearest_even_bounds
                (shr_m mrs1) (loc_of_shr_record mrs1)) as Hr.
  set (m1 := round_nearest_even (shr_m mrs1) (loc_of_shr_record mrs1))
    in *.
  assert (H1 : 0 < m1) by lia.
  assert (H1' : 0 <= m1) by lia.
  assert (He1' : emin <= e1) by lia.
  pose proof (shr_fexp_spec m1 e1 loc_Exact H1') as [Hm2 He2].
  pose proof (shifted_pos m1 e1 H1 He1') as Hp2. rewrite <- Hm2 in Hp2.
  destruct (shr_fexp prec emax m1 e1 loc_Exact) as [mrs2 e2].
  simpl fst in Hm2, Hp2. simpl snd in He2.
  destruct (shr_m mrs2) as [| m | m]; try lia.
  destruct (e2 <=? emax - prec); discriminate.
Qed.

Lemma binary_round_shape (s : bool) (p : positive) (e : Z) :
  binary_round prec emax s p e = S754_zero s
  \/ binary_round prec emax s p e = S754_infinity s
  \/ exists m' e',
      binary_round prec emax s p e = S754_finite s m' e'
      /\ Zpos m' < 2 ^ prec /\ emin <= e'
      /\ fexp (Zpos (digits2_pos p) + e) <= e'.
Proof.
  unfold binary_round, shl_align. fold fexp.
  destruct (fexp (Zpos (digits2_pos p) + e) - e) as [| d | d] eqn:E.
  - destruct (binary_round_aux_shape s (Zpos p) e loc_Exact)
      as [H | [H | (m' & e' & H & Hm & He & _ & Hf)]];
      [lia | auto | auto |].
    right. right. exists m', e'. simpl Zdigits2 in Hf. auto.
  - destruct (binary_round_aux_shape s (Zpos p) e loc_Exact)
      as [H | [H | (m' & e' & H & Hm & He & _ & Hf)]];
      [lia | auto | auto |].
    right. right. exists m', e'. simpl Zdigits2 in Hf. auto.
  - destruct (binary_round_aux_shape
                s (Zpos (Pos.iter xO p d))
                (fexp (Zpos (digits2_pos p) + e)) loc_Exact)
      as [H | [H | (m' & e' & H & Hm & He & Hf & _)]];
      [lia | auto | auto |].
    right. right. exists m', e'. auto.
Qed.

Lemma binary_round_nonzero (s : bool) (p : positive) (e : Z) :
  emin <= e -> binary_round prec emax s p e <> S754_zero s.
Proof.
  intros He. unfold binary_round, shl_align. fold fexp.
  pose proof (fexp_ge_emin (Zpos (digits2_pos p) + e)) as Hf.
  destruct (fexp (Zpos (digits2_pos p) + e) - e) as [| d | d];
    apply binary_round_aux_nonzero; lia.
Qed.

(** [x * c + h] for an integer [x >= 0] converted to the format and
    positive finite [c] and [h] is above zero. *)
Lemma scaled_plus_half_positive
      (x : Z) (mc mh : positive) (ec eh : Z) :
  0 <= x -> emin <= eh ->
  SFltb (S754_zero false)
        (SFadd prec emax
           (SFmul prec emax (binary_normalize prec emax x 0 false)
                  (S754_finite false mc ec))
           (S754_finite false mh eh)) = true.
Proof.
  intros Hx Heh.
  assert (Hnorm :
      binary_normalize prec emax x 0 false = S754_zero false
      \/ binary_normalize prec emax x 0 false = S754_infinity false
      \/ exists m e, binary_normalize prec emax x 0 false
                     = S754_finite false m e).
  { destruct x as [| p | p]; [now left | | lia]. simpl.
    destruct (binary_round_shape false p 0)
      as [H | [H | (m & e & H & _)]]; rewrite H; eauto. }
  destruct Hnorm as [-> | [-> | (m & e & ->)]]; try reflexivity.
  unfold SFmul.
  destruct (binary_round_aux_shape false (Zpos (m * mc)) (e + ec) loc_Exact)
    as [H | [H | (m' & e' & H & _ & He' & _)]]; [lia | | |];
    simpl xorb; rewrite H; try reflexivity.
  unfold SFadd, cond_Zopp.
  set (ez := Z.min e' eh).
  assert (Hez : emin <= ez) by (unfold ez; lia).
  simpl binary_normalize.
  pose proof (binary_round_nonzero
                false
                (fst (shl_align m' e' ez) + fst (shl_align mh eh ez)) ez
                Hez) as Hnz.
  destruct (binary_round_shape
              false (fst (shl_align m' e' ez) + fst (shl_align mh eh ez))
              ez)
    as [H' | [H' | (m'' & e'' & H' & _)]].
  - contradiction.
  - rewrite H'. reflexivity.
  - rewrite H'. reflexivity.
Qed.

(** Rounding is exact when only zero bits are shifted out. *)
Lemma binary_round_aux_exact (s : bool) (q n ex : Z) :
  0 < q -> 0 <= n ->
  fexp (Zdigits2 q + n + ex) = ex + n ->
  ex + n <= emax - prec ->
  binary_round_aux prec emax s (q * 2 ^ n) ex loc_Exact
  = S754_finite s (Z.to_pos q) (ex + n).
Proof.
  intros Hq Hn Hf He.
  assert (Hd : Zdigits2 (q * 2 ^ n) = Zdigits2 q + n)
    by now apply Zdigits2_mul_pow2.
  assert (Hq' : q = Zpos (Z.to_pos q)) by (rewrite Z2Pos.id; lia).
  assert (Hsnd : shr_fexp prec emax q (ex + n) loc_Exact
                 = (Build_shr_record q false false, ex + n)).
  { unfold shr_fexp. fold fexp.
    replace (Zdigits2 q + (ex + n)) with (Zdigits2 q + n + ex) by lia.
    rewrite Hf, Z.sub_diag. reflexivity. }
  unfold binary_round_aux.
  assert (Hfst : shr_fexp prec emax (q * 2 ^ n) ex loc_Exact
                 = (Build_shr_record q false false, ex + n)).
  { unfold shr_fexp. fold fexp. rewrite Hd, Hf.
    replace (ex + n - ex) with n by lia.
    destruct n as [| p | p]; [| | lia].
    - simpl. rewrite Z.mul_1_r, Z.add_0_r. reflexivity.
    - simpl shr_record_of_loc. unfold shr.
      rewrite iter_shr_1_exact by lia. reflexivity. }
  rewrite Hfst. simpl shr_m. simpl loc_of_shr_record.
  simpl round_nearest_even. rewrite Hsnd. simpl shr_m.
  rewrite Hq' at 1. apply Z.leb_le in He. rewrite He. reflexivity.
Qed.

Lemma shl_align_snd (m : positive) (e e' : Z) :
  snd (shl_align m e e') = Z.min e e'.
Proof.
  unfold shl_align. destruct (e' - e) as [| d | d] eqn:E; simpl; lia.
Qed.

(** Converting or normalising a value with at most [prec] bits is exact:
    the mantissa is shifted left to [prec] bits. *)
Lemma binary_round_exact_shl (s : bool) (p : positive) (e : Z) :
  let d := Zpos (digits2_pos p) in
  d <= prec -> emin <= e + d - prec -> e + d <= emax ->
  binary_round prec emax s p e
  = S754_finite s (Z.to_pos (Zpos p * 2 ^ (prec - d))) (e + d - prec).
Proof.
  intros d Hd Hmin Hmax. unfold binary_round. fold fexp. fold d.
  assert (Hf : fexp (d + e) = e + d - prec)
    by (unfold fexp, SpecFloat.fexp; fold emin; lia).
  rewrite Hf.
  pose proof (shl_align_fst p e (e + d - prec)) as H1.
  pose proof (shl_align_snd p e (e + d - prec)) as H2.
  destruct (shl_align p e (e + d - prec)) as [mz ez].
  simpl fst in H1. simpl snd in H2.
  replace (Z.max 0 (e - (e + d - prec))) with (prec - d) in H1 by lia.
  replace (Z.min e (e + d - prec)) with (e + d - prec) in H2 by lia.
  subst ez. rewrite <- H1.
  replace (Zpos mz) with (Zpos mz * 2 ^ 0) at 1 by (simpl; lia).
  rewrite binary_round_aux_exact; try lia.
  - rewrite Z.add_0_r. reflexivity.
  - rewrite H1, Zdigits2_mul_pow2 by lia. simpl Zdigits2. fold d.
    unfold fexp, SpecFloat.fexp. fold emin. lia.
Qed.

(** Normalising a value that is [2^n] times a [prec]-bit integer is
    exact: the [n] zero bits are shifted out. *)
Lemma binary_round_exact_shr (s : bool) (p : positive) (e q n : Z) :
  Zpos p = q * 2 ^ n -> 0 < q -> 0 <= n -> Zdigits2 q = prec ->
  emin <= e + n -> e + n <= emax - prec ->
  binary_round prec emax s p e = S754_finite s (Z.to_pos q) (e + n).
Proof.
  intros Hp Hq Hn Hdq Hmin Hmax. unfold binary_round. fold fexp.
  assert (Hd : Zpos (digits2_pos p) = prec + n).
  { change (Zpos (digits2_pos p)) with (Zdigits2 (Zpos p)).
    rewrite Hp, Zdigits2_mul_pow2 by lia. lia. }
  assert (Hf : fexp (Zpos (digits2_pos p) + e) = e + n)
    by (rewrite Hd; unfold fexp, SpecFloat.fexp; fold emin; lia).
  rewrite Hf. unfold shl_align.
  replace (e + n - e) with n by lia.
  assert (Hgoal : binary_round_aux prec emax s (Zpos p) e loc_Exact
                  = S754_finite s (Z.to_pos q) (e + n)).
  { rewrite Hp. apply binary_round_aux_exact; try lia.
    rewrite Hdq. unfold fexp, SpecFloat.fexp. fold emin. lia. }
  destruct n as [| k | k]; [exact Hgoal | exact Hgoal | lia].
Qed.

End Rounding.

(** ** The sign of a cube in [double] *)

Lemma prec64_pos : 0 < 53.
Proof. reflexivity. Qed.

Lemma mul_finite_shape (sx sy : bool) (mx my : positive) (ex ey : Z) :
  let r := (S754_finite sx mx ex * S754_finite sy my ey)%real in
  r = S754_zero (xorb sx sy)
  \/ r = S754_infinity (xorb sx sy)
  \/ exists m e, r = S754_finite (xorb sx sy) m e
                 /\ Zpos m < 2 ^ 53 /\ -1074 <= e /\ ex + ey <= e.
Proof.
  destruct (binary_round_aux_shape 53 1024 prec64_pos (xorb sx sy)
              (Zpos (mx * my)) (ex + ey) loc_Exact)
    as [H | [H | (m & e & H & Hm & He & Hx & _)]]; [lia | auto | auto |].
  right. right. exists m, e. auto.
Qed.

Lemma mul_bounded64 (c x : D.real_type) : bounded64 (c * x)%real.
Proof.
  destruct c as [s | s | | s m e], x as [t | t | | t n f];
    try exact I.
  destruct (mul_finite_shape s t m n e f)
    as [H | [H | (m' & e' & H & Hm & He & _)]];
    cbv zeta in H; rewrite H; simpl; auto.
Qed.

Lemma mul_finite_nonzero (sx sy : bool) (mx my : positive) (ex ey : Z) :
  -1074 <= ex + ey ->
  (S754_finite sx mx ex * S754_finite sy my ey)%real
  <> S754_zero (xorb sx sy).
Proof.
  intros H.
  apply (binary_round_aux_nonzero 53 1024 prec64_pos); [lia | exact H].
Qed.

Lemma cube_of_positive (m : positive) (e : Z) :
  -105 <= e ->
  let t := S754_finite false m e in
  (t * t * t <=? D.zero)%real = false.
Proof.
  intros He t. unfold t.
  destruct (mul_finite_shape false false m m e e)
    as [H | [H | (m2 & e2 & H & _ & _ & He2)]]; cbv zeta in H; simpl xorb in H.
  - exfalso. revert H. apply mul_finite_nonzero. lia.
  - rewrite H. reflexivity.
  - rewrite H.
    destruct (mul_finite_shape false false m2 m e2 e)
      as [H' | [H' | (m3 & e3 & H' & _)]]; cbv zeta in H'; simpl xorb in H'.
    + exfalso. revert H'. apply mul_finite_nonzero. lia.
    + rewrite H'. reflexivity.
    + rewrite H'. reflexivity.
Qed.

Lemma cube_of_nonpositive (t : D.real_type) :
  (t <=? D.zero)%real = true -> (t * t * t <=? D.zero)%real = true.
Proof.
  destruct t as [s | s | | s m e]; try destruct s; intros Ht;
    try discriminate Ht; try reflexivity.
  destruct (mul_finite_shape true true m m e e)
    as [H | [H | (m2 & e2 & H & _)]]; cbv zeta in H; simpl xorb in H; rewrite H;
    try reflexivity.
  destruct (mul_finite_shape false true m2 m e2 e)
    as [H' | [H' | (m3 & e3 & H' & _)]]; cbv zeta in H'; simpl xorb in H'; rewrite H';
    reflexivity.
Qed.

Lemma one_eq : D.one = S754_finite false 4503599627370496 (-52).
Proof. reflexivity. Qed.

Lemma pow2_lt_digits (k : Z) (p : positive) :
  0 <= k -> 2 ^ k <= Zpos p -> k < Zpos (digits2_pos p).
Proof.
  intros Hk H. pose proof (digits2_pos_bounds p) as [_ Hu].
  apply (Z.pow_lt_mono_r_iff 2); lia.
Qed.

(** [1.0 + y], when positive and finite, is at least [2^-53]: its
    exponent is at least [-105]. *)
Lemma add_one_exponent (y : D.real_type) :
  bounded64 y ->
  forall m e, (D.one + y)%real = S754_finite false m e -> -105 <= e.
Proof.
  rewrite one_eq.
  destruct y as [s | s | | sy my ey]; intros Hy m e H;
    try discriminate H.
  - inversion H. lia.
  - destruct Hy as [Hmy Hey].
    unfold D.add, fadd, binary64, prec, emax, SFadd in H.
    cbv zeta in H. rewrite !shl_align_fst in H.
    set (ez := Z.min (-52) ey) in *.
    unfold cond_Zopp at 1 in H.
    set (M := 4503599627370496 * 2 ^ Z.max 0 (-52 - ez)
              + cond_Zopp sy (Zpos my * 2 ^ Z.max 0 (ey - ez))) in *.
    destruct M as [| p | p] eqn:EM; simpl binary_normalize in H.
    + discriminate H.
    + destruct (binary_round_shape 53 1024 prec64_pos false p ez)
        as [H' | [H' | (m' & e' & H' & _ & _ & Hf)]];
        rewrite H' in H; try discriminate H.
      inversion H; subst m' e'. clear H H'.
      pose proof (fexp_ge_sub 53 1024 (Zpos (digits2_pos p) + ez)) as Hs.
      assert (Hd : -52 <= Zpos (digits2_pos p) + ez); [| lia].
      destruct (Z_le_gt_dec (-52) ey) as [Hge | Hlt].
      * assert (ez = -52) by (unfold ez; lia). lia.
      * assert (Hez : ez = ey) by (unfold ez; lia).
        assert (Hk : -53 - ey < Zpos (digits2_pos p)); [| lia].
        apply pow2_lt_digits; [lia |].
        assert (HM : 0 < M) by (rewrite EM; lia).
        assert (HMeq : M = 2 ^ (- ey) + cond_Zopp sy (Zpos my)).
        { unfold M. rewrite Hez.
          replace (Z.max 0 (-52 - ey)) with (-52 - ey) by lia.
          replace (Z.max 0 (ey - ey)) with 0 by lia.
          rewrite Z.pow_0_r, Z.mul_1_r.
          change 4503599627370496 with (2 ^ 52).
          rewrite <- Z.pow_add_r by lia.
          replace (52 + (-52 - ey)) with (- ey) by lia. reflexivity. }
        rewrite <- EM. rewrite HMeq in HM |- *. clear HMeq EM M.
        assert (Hle : 2 ^ (-53 - ey) <= 2 ^ (- ey))
          by (apply Z.pow_le_mono_r; lia).
        destruct sy; simpl cond_Zopp in HM |- *; [| lia].
        destruct (Z.eq_dec ey (-53)) as [Heq | Hne].
        -- replace (-53 - ey) with 0 by lia. rewrite Z.pow_0_r. lia.
        -- assert (H2 : 2 ^ (- ey) = 2 * 2 ^ (- ey - 1)).
           { rewrite <- Z.pow_succ_r by lia. f_equal. lia. }
           assert (H3 : 2 ^ 53 <= 2 ^ (- ey - 1))
             by (apply Z.pow_le_mono_r; lia).
           assert (H4 : 2 ^ (-53 - ey) <= 2 ^ (- ey - 1))
             by (apply Z.pow_le_mono_r; lia).
           lia.
    + destruct (binary_round_shape 53 1024 prec64_pos true p ez)
        as [H' | [H' | (m' & e' & H' & _)]];
        rewrite H' in H; discriminate H.
Qed.

(** The test [v_cbrt <= 0.0] of the source and the test [v <= 0] of the
    specification agree on every [v_cbrt = 1.0 + c * x]. *)
Lemma cube_sign (c x : D.real_type) :
  let t := (D.one + c * x)%real in
  (t * t * t <=? D.zero)%real = (t <=? D.zero)%real.
Proof.
  intros t.
  destruct (t <=? D.zero)%real eqn:Ht.
  - now apply cube_of_nonpositive.
  - pose proof (add_one_exponent (c * x)%real (mul_bounded64 c x)) as He.
    fold t in He.
    destruct t as [s | s | | s m e]; try destruct s; try discriminate Ht;
      try reflexivity.
    apply cube_of_positive. now apply (He m e).
Qed.

(** ** The large-shape rejection loop *)

Section GammaLarge.
Context {P : Platform}.

Lemma gamma_large_body_spec (d c : D.real_type) (s : xoshiro_state) :
  gamma_large_body d c s = spec_gamma_attempt d c s.
Proof.
  unfold gamma_large_body, spec_gamma_attempt.
  apply bind_ext. intros x s1. cbv zeta.
  rewrite cube_sign.
  destruct (D.one + c * x <=? D.zero)%real; [reflexivity |].
  apply bind_ext. intros u s2.
  destruct (u <? D.one - c_0_0331 * (x * x) * (x * x))%real;
    [reflexivity |].
  simpl orb.
  destruct (log u <? _)%real; reflexivity.
Qed.

Lemma gamma_large_loop_spec (fuel : nat) (d c : D.real_type) :
  forall s, gamma_large_loop fuel d c s = spec_gamma_loop fuel d c s.
Proof.
  induction fuel as [| fuel IH]; intros s; [reflexivity |].
  simpl. unfold bind. rewrite gamma_large_body_spec.
  destruct (spec_gamma_attempt d c s) as [[g |] s' | | |];
    try reflexivity.
  apply IH.
Qed.

Lemma gamma_large_loop_S (fuel : nat) (d c : D.real_type) s :
  gamma_large_loop (S fuel) d c s
  = match gamma_large_body d c s with
    | Returned (Some g) s' => Returned g s'
    | Returned None s' => gamma_large_loop fuel d c s'
    | Threw what s' => Threw what s'
    | Trapped printed => Trapped printed
    | OutOfFuel => OutOfFuel
    end.
Proof.
  simpl. unfold bind.
  destruct (gamma_large_body d c s) as [[g |] s' | | |]; reflexivity.
Qed.

Lemma gamma_large_spec (fuel : nat) (shape : D.real_type) s :
  gamma_large fuel shape s = spec_gamma_large fuel shape s.
Proof. apply gamma_large_loop_spec. Qed.

(** A run that has returned is not cut short or changed by more fuel. *)
Lemma gamma_large_loop_more_fuel (fuel : nat) (d c : D.real_type) :
  forall fuel' s g s',
    (fuel <= fuel')%nat ->
    gamma_large_loop fuel d c s = Returned g s' ->
    gamma_large_loop fuel' d c s = Returned g s'.
Proof.
  induction fuel as [| fuel IH]; intros fuel' s g s' Hle H;
    [discriminate H |].
  destruct fuel' as [| fuel']; [lia |].
  simpl in *. unfold bind in *.
  destruct (gamma_large_body d c s) as [[g0 |] s0 | | |];
    try discriminate H; [exact H |].
  apply IH; [lia | exact H].
Qed.

Lemma gamma_scale_large (b : backend) (fuel : nat)
      (shape scale : D.real_type) (s : xoshiro_state) :
  deterministic s = false ->
  (scale <? D.zero)%real = false -> (scale =? D.zero)%real = false ->
  (D.one <? shape)%real = true ->
  gamma_scale b fuel shape scale s
  = (g <- gamma_large fuel shape ;; ret (g * scale)%real) s.
Proof.
  intros Hdet Hscale Hc H1.
  assert (Hshape : (shape <? D.zero)%real = false).
  { destruct shape as [t | t | | t m e]; try destruct t;
      try reflexivity; discriminate H1. }
  assert (Hz : (shape =? D.zero)%real = false).
  { destruct shape as [t | t | | t m e]; try destruct t;
      try reflexivity; discriminate H1. }
  pose proof (ltb_asym _ _ H1) as [Hlt Heq].
  rewrite gamma_scale_validated by assumption.
  rewrite Hz, Hc. simpl. unfold bind at 1, get_deterministic.
  rewrite Hdet, Hlt, Heq. reflexivity.
Qed.

End GammaLarge.

(** On the replaying platform a word [0] is a normal deviate of [-2^63],
    which the loop at shape 2 rejects, and a word [2^63] is the deviate
    [0], which it accepts. *)
Lemma replay_rejects (rest : list Z) :
  gamma_large_body (P := Replay.platform)
    (D.of_uint 2 - c_third)%real
    (D.one / D.sqrt (c_9 * (D.of_uint 2 - c_third)))%real
    (mk_state (0 :: rest) false)
  = Returned None (mk_state rest false).
Proof. vm_compute. reflexivity. Qed.

Lemma replay_accepts :
  gamma_large_body (P := Replay.platform)
    (D.of_uint 2 - c_third)%real
    (D.one / D.sqrt (c_9 * (D.of_uint 2 - c_third)))%real
    (mk_state [2 ^ 63; 0] false)
  = Returned (Some (D.of_uint 2 - c_third)%real) (mk_state [] false).
Proof. vm_compute. reflexivity. Qed.

Lemma replay_needs_more (n : nat) :
  forall fuel,
    gamma_large (P := Replay.platform) fuel (D.of_uint 2)
      (mk_state (repeat 0 n ++ [2 ^ 63; 0]) false)
    = if (fuel <=? n)%nat then OutOfFuel
      else Returned (D.of_uint 2 - c_third)%real (mk_state [] false).
Proof.
  unfold gamma_large. cbv zeta.
  induction n as [| n IH]; intros [| fuel]; [reflexivity | | reflexivity |].
  - cbn [repeat app]. rewrite gamma_large_loop_S, replay_accepts.
    reflexivity.
  - cbn [repeat app]. rewrite gamma_large_loop_S, replay_rejects.
    rewrite IH. reflexivity.
Qed.

(** C6.  For [shape > 1], [gamma_scale] runs Marsaglia and Tsang's loop
    as specified, with [d = shape - 1/3] and [c = 1/sqrt(9 d)]: every
    turn draws a standard normal [x], is rejected when
    [v = (1 + c x)^3 <= 0], otherwise draws a uniform [u] and is accepted
    exactly when [u < 1 - 0.0331 x^4] or
    [ln u < x^2/2 + d (1 - v + ln v)]; the accepted turn returns
    [d v], which [gamma_scale] multiplies by [scale].  The loop has no
    cap: a result, once returned, is the same for every larger fuel,
    and for every [n] there is a run that is rejected [n] times and
    returns on turn [n + 1]. *)
Theorem gamma_large_marsaglia_tsang :
  (forall (P : Platform) (fuel : nat) (shape : D.real_type) s,
      gamma_large fuel shape s = spec_gamma_large fuel shape s)
  /\ (forall (P : Platform) b (fuel : nat) (shape scale : D.real_type) s,
         deterministic s = false ->
         (scale <? D.zero)%real = false ->
         (scale =? D.zero)%real = false ->
         (D.one <? shape)%real = true ->
         gamma_scale b fuel shape scale s
         = (g <- spec_gamma_large fuel shape ;; ret (g * scale)%real) s)
  /\ (forall (P : Platform) (fuel fuel' : nat) (shape : D.real_type)
             s g s',
         (fuel <= fuel')%nat ->
         gamma_large fuel shape s = Returned g s' ->
         gamma_large fuel' shape s = Returned g s')
  /\ (forall n : nat,
         exists s,
           gamma_large (P := Replay.platform) n (D.of_uint 2) s
           = OutOfFuel
           /\ exists g s',
               gamma_large (P := Replay.platform) (S n) (D.of_uint 2) s
               = Returned g s').
Proof.
  split; [| split; [| split]].
  - intros P fuel shape s. apply gamma_large_spec.
  - intros P b fuel shape scale s Hdet Hscale Hc H1.
    rewrite gamma_scale_large by assumption.
    unfold bind. rewrite gamma_large_spec. reflexivity.
  - intros P fuel fuel' shape s g s' Hle H.
    unfold gamma_large in *. cbv zeta in *.
    now apply (gamma_large_loop_more_fuel fuel _ _ fuel').
  - intros n. exists (mk_state (repeat 0 n ++ [2 ^ 63; 0]) false).
    rewrite !replay_needs_more.
    rewrite Nat.leb_refl.
    replace (S n <=? n)%nat with false
      by (symmetry; apply Nat.leb_gt; lia).
    split; [reflexivity |]. eexists. eexists. reflexivity.
Qed.

(** C7 (as amended).  [random_normal_box_muller] draws the uniforms in
    pairs: each turn of its loop draws [u1] and then [u2], and the whole
    pair is drawn again while [u1 <= epsilon], so that a rejected turn
    consumes two words of the stream.  If the first [n] pairs are
    rejected and pair [n] is not, every fuel above [n] returns
    [sqrt(-2 ln u1) cos(2 pi u2)] for that pair, with [2n + 2] words
    consumed; [log] is evaluated only at a [u1] that is not
    [<= epsilon], and no run fails. *)
Theorem box_muller_redraws_pairs
        (P : Platform) (n fuel : nat) (s : xoshiro_state)
        (Hacc : accepts_at n s) (Hfuel : (n < fuel)%nat) :
  (let u1 := nth_uniform (2 * n) s in
   let u2 := nth_uniform (2 * n + 1) s in
   random_normal_box_muller fuel s
   = Returned (D.sqrt (D.neg D.two * log u1) * cos (two_pi * u2))%real
              (advance (2 * n + 2) s)
   /\ (u1 <=? epsilon)%real = false)
  /\ (forall fuel' s', failed (random_normal_box_muller fuel' s') = None)
  /\ (forall fuel' s' v s'',
         random_normal_box_muller fuel' s' = Returned v s'' ->
         exists k u1 u2,
           accepts_at k s'
           /\ u1 = nth_uniform (2 * k) s'
           /\ u2 = nth_uniform (2 * k + 1) s'
           /\ (u1 <=? epsilon)%real = false
           /\ v = (D.sqrt (D.neg D.two * log u1) * cos (two_pi * u2))%real
           /\ s'' = advance (2 * k + 2) s').
Proof.
  split; [| split].
  - cbv zeta. split; [| apply Hacc].
    unfold random_normal_box_muller, bind.
    rewrite (box_muller_draws_accepts n fuel s Hacc Hfuel). reflexivity.
  - intros fuel' s'. unfold random_normal_box_muller, bind.
    pose proof (box_muller_draws_sound fuel' s') as H.
    destruct (box_muller_draws fuel' s') as [[u1 u2] t | | |];
      try reflexivity; contradiction.
  - intros fuel' s' v s'' H. unfold random_normal_box_muller, bind in H.
    pose proof (box_muller_draws_sound fuel' s') as Hs.
    destruct (box_muller_draws fuel' s') as [[u1 u2] t | | |];
      try discriminate H.
    destruct Hs as (k & _ & Hk & -> & -> & ->).
    inversion H; subst v s''. simpl fst. simpl snd.
    exists k. eexists. eexists.
    repeat split; try apply Hk.
Qed.

(** ** The uniform conversions at the top of their domain *)

Lemma shiftr_top (x : Z) :
  2 ^ 64 - 2048 <= x <= uint64_max -> Z.shiftr x 11 = 2 ^ 53 - 1.
Proof.
  unfold uint64_max. intros H. rewrite Z.shiftr_div_pow2 by lia.
  symmetry.
  apply (Z.div_unique x (2 ^ 11) (2 ^ 53 - 1) (x - (2 ^ 53 - 1) * 2 ^ 11));
    lia.
Qed.

(** The 128 largest 32-bit integers. *)
Lemma top128_in (x : Z) :
  2 ^ 32 - 128 <= x <= uint32_max ->
  In x (map (fun k => 2 ^ 32 - 128 + Z.of_nat k) (seq 0 128)).
Proof.
  unfold uint32_max. intros H. apply in_map_iff.
  exists (Z.to_nat (x - (2 ^ 32 - 128))). split; [lia |].
  apply in_seq. lia.
Qed.

Lemma same_float_eq (x y : spec_float) : same_float x y = true -> x = y.
Proof.
  destruct x as [s | s | | s m e], y as [t | t | | t n f]; simpl;
    intros H; try discriminate H; try reflexivity.
  - apply Bool.eqb_prop in H. now subst.
  - apply Bool.eqb_prop in H. now subst.
  - apply andb_true_iff in H. destruct H as [H He].
    apply andb_true_iff in H. destruct H as [Hs Hm].
    apply Bool.eqb_prop in Hs. apply Pos.eqb_eq in Hm.
    apply Z.eqb_eq in He. now subst.
Qed.

Lemma float_u32_top (x : Z) :
  2 ^ 32 - 128 <= x <= uint32_max -> int_to_real_float_u32 x = F.one.
Proof.
  intros H. apply top128_in in H. apply same_float_eq.
  revert x H.
  apply (proj1 (forallb_forall
                  (fun x => same_float (int_to_real_float_u32 x) F.one)
                  (map (fun k => 2 ^ 32 - 128 + Z.of_nat k) (seq 0 128)))).
  vm_compute. reflexivity.
Qed.

Lemma float_u64_as_u32 (x : Z) :
  int_to_real_float_u64 x
  = int_to_real_float_u32 (Z.shiftr x 32 mod 2 ^ 32).
Proof. reflexivity. Qed.

Lemma emin64 : SpecFloat.emin 53 1024 = -1074.
Proof. reflexivity. Qed.

Lemma emin32 : SpecFloat.emin 24 128 = -149.
Proof. reflexivity. Qed.

(** Every conversion is above [0.0], for every input. *)
Lemma int_to_real_positive (x : Z) :
  0 <= x ->
  D.ltb D.zero (int_to_real_double_u64 x) = true
  /\ D.ltb D.zero (int_to_real_double_u32 x) = true
  /\ F.ltb F.zero (int_to_real_float_u64 x) = true
  /\ F.ltb F.zero (int_to_real_float_u32 x) = true.
Proof.
  intros Hx.
  assert (H11 : 0 <= Z.shiftr x 11) by now apply Z.shiftr_nonneg.
  assert (H32 : 0 <= Z.shiftr x 32 mod 2 ^ 32)
    by (apply Z.mod_pos_bound; lia).
  repeat split.
  - apply (scaled_plus_half_positive 53 1024 prec64_pos
             (Z.shiftr x 11) 4503599627370496 4503599627370496
             (-105) (-106) H11).
    rewrite emin64. lia.
  - apply (scaled_plus_half_positive 53 1024 prec64_pos
             x 4503599627370496 4503599627370496 (-84) (-85) Hx).
    rewrite emin64. lia.
  - apply (scaled_plus_half_positive 24 128 eq_refl
             (Z.shiftr x 32 mod 2 ^ 32) 8388608 8388608 (-55) (-56) H32).
    rewrite emin32. lia.
  - apply (scaled_plus_half_positive 24 128 eq_refl
             x 8388608 8388608 (-55) (-56) Hx).
    rewrite emin32. lia.
Qed.

(** *** The 32-bit integer to [double] conversion is exact *)

Lemma TWOPOW32_INV_DOUBLE_eq :
  TWOPOW32_INV_DOUBLE = S754_finite false 4503599627370496 (-84)
  /\ D.div TWOPOW32_INV_DOUBLE D.two
     = S754_finite false 4503599627370496 (-85).
Proof. split; reflexivity. Qed.

Lemma digits_u32 (x : Z) :
  0 < x < 2 ^ 32 -> 1 <= Zdigits2 x <= 32.
Proof.
  intros H. pose proof (Zdigits2_lower x ltac:(lia)) as Hl.
  assert (0 < Zdigits2 x) by (destruct x; simpl; lia).
  assert (Zdigits2 x - 1 < 32); [| lia].
  apply (Z.pow_lt_mono_r_iff 2); lia.
Qed.

(** For [0 < x < 2^32] the result is [(2x + 1) 2^-33], held without
    rounding. *)
Lemma int_to_real_double_u32_exact (x : Z) :
  0 < x < 2 ^ 32 ->
  int_to_real_double_u32 x
  = S754_finite false
      (Z.to_pos ((2 * x + 1) * 2 ^ (52 - Zdigits2 x)))
      (Zdigits2 x - 85).
Proof.
  intros Hx. pose proof (digits_u32 x Hx) as Hd.
  pose proof (Zdigits2_lower x ltac:(lia)) as Hlo.
  pose proof (Zdigits2_upper x ltac:(lia)) as Hup.
  destruct TWOPOW32_INV_DOUBLE_eq as [Hc Hh].
  unfold int_to_real_double_u32. rewrite Hh, Hc.
  destruct x as [| p | p]; try lia.
  simpl Zdigits2 in *. set (d := Zpos (digits2_pos p)) in *.
  (* powers of two that occur *)
  assert (HA : 2 ^ (53 - d) = 2 * 2 ^ (52 - d)).
  { replace (53 - d) with (Z.succ (52 - d)) by lia.
    apply Z.pow_succ_r. lia. }
  assert (HB : 2 ^ (52 - d) * 2 ^ d = 2 ^ 52).
  { rewrite <- Z.pow_add_r by lia. f_equal. lia. }
  assert (HC : 0 < 2 ^ (52 - d)) by (apply Z.pow_pos_nonneg; lia).
  assert (HD : 2 ^ d = 2 * 2 ^ (d - 1)).
  { replace d with (Z.succ (d - 1)) at 1 by lia.
    apply Z.pow_succ_r. lia. }
  (* the conversion of x *)
  assert (Hconv : D.of_uint (Zpos p)
                  = S754_finite false
                      (Z.to_pos (Zpos p * 2 ^ (53 - d))) (d - 53)).
  { unfold D.of_uint, f_of_uint, binary64, prec, emax.
    simpl binary_normalize.
    rewrite (binary_round_exact_shl 53 1024 false p 0);
      fold d; try rewrite emin64; try lia.
    reflexivity. }
  rewrite Hconv. set (a := Z.to_pos (Zpos p * 2 ^ (53 - d))).
  assert (Ha : Zpos a = Zpos p * 2 ^ (53 - d))
    by (unfold a; rewrite Z2Pos.id; nia).
  assert (Hda : Zdigits2 (Zpos a) = 53).
  { rewrite Ha, Zdigits2_mul_pow2 by lia. simpl Zdigits2. fold d. lia. }
  (* the product with 2^-32 *)
  assert (Hmul : D.mul (S754_finite false a (d - 53))
                       (S754_finite false 4503599627370496 (-84))
                 = S754_finite false a (d - 85)).
  { unfold D.mul, fmul, binary64, prec, emax, SFmul. simpl xorb.
    rewrite Pos2Z.inj_mul. change (Zpos 4503599627370496) with (2 ^ 52).
    rewrite (binary_round_aux_exact 53 1024);
      try rewrite emin64; try lia.
    - rewrite Pos2Z.id. f_equal. lia.
    - rewrite Hda. unfold SpecFloat.fexp. rewrite emin64. lia. }
  rewrite Hmul.
  (* the sum with 2^-33 *)
  unfold D.add, fadd, binary64, prec, emax, SFadd. cbv zeta.
  replace (Z.min (d - 85) (-85)) with (-85) by lia.
  unfold cond_Zopp. rewrite !shl_align_fst.
  replace (Z.max 0 (d - 85 - -85)) with d by lia.
  replace (Z.max 0 (-85 - -85)) with 0 by lia.
  rewrite Ha, Z.pow_0_r, Z.mul_1_r.
  change 4503599627370496 with (2 ^ 52).
  set (q := (2 * Zpos p + 1) * 2 ^ (52 - d)).
  assert (Hsum : Zpos p * 2 ^ (53 - d) * 2 ^ d + 2 ^ 52 = q * 2 ^ d).
  { unfold q. rewrite HA. nia. }
  rewrite Hsum.
  assert (Hq : 0 < q) by (unfold q; nia).
  assert (Hpd : 0 < 2 ^ d) by (apply Z.pow_pos_nonneg; lia).
  destruct (q * 2 ^ d) as [| P | P] eqn:EP; try nia.
  simpl binary_normalize.
  rewrite (binary_round_exact_shr 53 1024 false P (-85) q d);
    try rewrite emin64; try lia.
  - f_equal; lia.
  - unfold q. rewrite Zdigits2_mul_pow2 by lia.
    rewrite (Zdigits2_unique (2 * Zpos p + 1) (d + 1)); try lia.
    replace (d + 1 - 1) with d by lia.
    replace (d + 1) with (Z.succ d) by lia.
    rewrite Z.pow_succ_r by lia. lia.
Qed.

(** The sibling that keeps the boundary law: for every 32-bit integer
    the [double] result is strictly between [0.0] and [1.0]. *)
Lemma int_to_real_double_u32_open (x : Z) :
  0 <= x <= uint32_max ->
  D.ltb D.zero (int_to_real_double_u32 x) = true
  /\ D.ltb (int_to_real_double_u32 x) D.one = true.
Proof.
  unfold uint32_max. intros Hx.
  destruct (Z.eq_dec x 0) as [-> | Hne]; [split; reflexivity |].
  assert (Hx' : 0 < x < 2 ^ 32) by lia.
  pose proof (digits_u32 x Hx') as Hd.
  rewrite (int_to_real_double_u32_exact x Hx'), one_eq.
  split; [reflexivity |].
  unfold D.ltb, SFltb, SFcompare.
  assert (Hlt : (Zdigits2 x - 85 ?= -52) = Lt)
    by (apply Z.compare_lt_iff; lia).
  rewrite Hlt. reflexivity.
Qed.

(** C1.  Near the largest input three of the four conversions return
    exactly [1.0], which is not below [1.0]: the 64-bit integer to
    [double], for the 2048 largest inputs (the sum
    [(2^53 - 1) 2^-53 + 2^-54] is a tie that rounds to even), and both
    conversions to [float], for the inputs whose upper 32 bits are among
    the 128 largest 32-bit integers (these round to [2^32] when
    converted to [float]).  Just below those inputs the results are
    below [1.0]; the 32-bit integer to [double] conversion is strictly
    between [0.0] and [1.0] on its whole domain, and all four are above
    [0.0] everywhere. *)
Theorem int_to_real_reaches_one :
  (forall x, 2 ^ 64 - 2048 <= x <= uint64_max ->
             int_to_real_double_u64 x = D.one)
  /\ (forall x, 2 ^ 32 - 128 <= x <= uint32_max ->
                int_to_real_float_u32 x = F.one)
  /\ (forall x, (2 ^ 32 - 128) * 2 ^ 32 <= x <= uint64_max ->
                int_to_real_float_u64 x = F.one)
  /\ (D.ltb D.one D.one = false /\ F.ltb F.one F.one = false)
  /\ (forall x, 0 <= x <= uint32_max ->
                D.ltb D.zero (int_to_real_double_u32 x) = true
                /\ D.ltb (int_to_real_double_u32 x) D.one = true)
  /\ (forall x, 0 <= x ->
                D.ltb D.zero (int_to_real_double_u64 x) = true
                /\ F.ltb F.zero (int_to_real_float_u64 x) = true
                /\ F.ltb F.zero (int_to_real_float_u32 x) = true)
  /\ F.ltb (int_to_real_float_u32 (2 ^ 32 - 129)) F.one = true
  /\ D.ltb (int_to_real_double_u64 (2 ^ 64 - 2049)) D.one = true.
Proof.
  split; [| split; [| split; [| split; [| split; [| split]]]]].
  - intros x H. unfold int_to_real_double_u64.
    rewrite (shiftr_top x H). reflexivity.
  - apply float_u32_top.
  - intros x H. rewrite float_u64_as_u32. apply float_u32_top.
    unfold uint64_max, uint32_max in *.
    assert (Hs : 2 ^ 32 - 128 <= Z.shiftr x 32 < 2 ^ 32).
    { rewrite Z.shiftr_div_pow2 by lia. split.
      - apply Z.div_le_lower_bound; lia.
      - apply Z.div_lt_upper_bound; lia. }
    rewrite Z.mod_small by lia. lia.
  - split; reflexivity.
  - apply int_to_real_double_u32_open.
  - intros x Hx. destruct (int_to_real_positive x Hx) as (H1 & _ & H3 & H4).
    auto.
  - vm_compute. split; reflexivity.
Qed.

(** ** Worked examples on the replaying platform *)

Section Examples.
#[local] Existing Instance Replay.platform.

(** C2, counterexample to the claim as stated.  For a NaN shape the
  hypothesis [shape >= 0 and scale >= 0] fails, yet [gamma_validate]
  raises nothing on either backend. *)
Lemma gamma_validate_accepts_nan :
((D.zero <=? D.nan) && (D.zero <=? D.one))%real = false
/\ gamma_validate (P := Replay.platform) Host D.nan D.one st_sto
   = Returned tt st_sto
/\ gamma_validate (P := Replay.platform) Device D.nan D.one st_sto
   = Returned tt st_sto
/\ failed (gamma_scale (P := Replay.platform) Host 3 D.nan D.one st_det)
   = None.
Proof. vm_compute. repeat split. Qed.

(** C3, counterexample to the claim as stated.  On the device backend a
  deterministic state does not make [cauchy] fail: it draws a word and
  returns a value. *)
Lemma cauchy_device_ignores_flag :
deterministic st_det = true
/\ failed (cauchy (P := Replay.platform) Device D.zero D.one st_det)
   = None
/\ exists v,
    cauchy (P := Replay.platform) Device D.zero D.one st_det
    = Returned v (mk_state [11] true).
Proof. vm_compute. repeat split. eexists. reflexivity. Qed.

Lemma cauchy_deterministic_witness :
deterministic st_det = true
/\ cauchy (P := Replay.platform) Host D.zero D.one st_det
   = Threw cauchy_message st_det
/\ cauchy (P := Replay.platform) Device D.zero D.one st_det
   = Returned (D.zero + D.one
               * tan (M_PI * int_to_real (fst (next st_det))))%real
              (snd (next st_det)).
Proof.
split; [reflexivity |].
apply (cauchy_deterministic (P := Replay.platform)). reflexivity.
Defined.

Lemma cauchy_stochastic_witness :
deterministic st_sto = false
/\ cauchy (P := Replay.platform) Host D.zero D.infinity st_sto
   = Returned (D.zero + D.infinity
               * tan (M_PI * int_to_real (fst (next st_sto))))%real
              (snd (next st_sto)).
Proof.
split; [reflexivity |].
apply (cauchy_stochastic (P := Replay.platform)). reflexivity.
Defined.

(** C4, counterexample to the claim as stated.  With [shape = 0] and
  [scale = +infinity], both [>= 0], the deterministic call returns [0]
  while [shape * scale] is NaN. *)
Lemma gamma_zero_shape_infinite_scale :
(D.zero <=? D.zero)%real = true
/\ (D.zero <=? D.infinity)%real = true
/\ deterministic st_det = true
/\ gamma_scale (P := Replay.platform) Host 0 D.zero D.infinity st_det
   = Returned D.zero st_det
/\ (D.zero * D.infinity)%real = D.nan
/\ (D.zero =? D.zero * D.infinity)%real = false.
Proof. vm_compute. repeat split. Qed.

Lemma gamma_scale_deterministic_mean_witness :
deterministic st_det = true
/\ (D.zero <=? D.of_uint 3)%real = true
/\ (D.zero <=? D.of_uint 2)%real = true
/\ gamma_scale (P := Replay.platform) Host 0 (D.of_uint 3) (D.of_uint 2)
     st_det
   = Returned (D.of_uint 6) st_det.
Proof.
split; [reflexivity |]. split; [reflexivity |]. split; [reflexivity |].
pose proof (gamma_scale_deterministic_mean (P := Replay.platform)
              Host 0 (D.of_uint 3) (D.of_uint 2) st_det
              eq_refl eq_refl eq_refl) as [_ H].
exact H.
Defined.

Lemma gamma_scale_deterministic_frame_witness :
deterministic st_det = true
/\ (D.zero <=? D.of_uint 3)%real = true
/\ (D.zero <=? D.of_uint 2)%real = true
/\ exists r s',
    gamma_scale (P := Replay.platform) Device 0 (D.of_uint 3)
      (D.of_uint 2) st_det = Returned r s'
    /\ state s' = state st_det /\ s' = st_det.
Proof.
split; [reflexivity |]. split; [reflexivity |]. split; [reflexivity |].
apply (gamma_scale_deterministic_frame (P := Replay.platform)
         Device 0 (D.of_uint 3) (D.of_uint 2) st_det); reflexivity.
Defined.

Lemma gamma_scale_dispatch_witness :
deterministic st_sto = false
/\ (D.of_uint 2 <? D.zero)%real = false
/\ (D.of_uint 3 <? D.zero)%real = false
/\ gamma_scale (P := Replay.platform) Host 4 (D.of_uint 2) (D.of_uint 3)
     st_sto
   = (g <- gamma_large 4 (D.of_uint 2) ;; ret (g * D.of_uint 3)%real)
       st_sto.
Proof.
split; [reflexivity |]. split; [reflexivity |]. split; [reflexivity |].
pose proof (gamma_scale_dispatch (P := Replay.platform)
              Host 4 (D.of_uint 2) (D.of_uint 3) st_sto
              eq_refl eq_refl eq_refl) as (_ & _ & _ & H).
apply H; reflexivity.
Defined.

(** C7, counterexample to the claim as stated.  When the first word
  gives [u1 <= epsilon], the source discards the pair and returns
  from the third and fourth words, four words consumed; drawing [u2]
  only after an accepted [u1], as the claim words it, returns from
  the second and third, three words consumed. *)
Lemma box_muller_not_as_specified :
(nth_uniform (P := Replay.platform) 0 st_sto <=? epsilon)%real = true
/\ random_normal_box_muller (P := Replay.platform) 2 st_sto
   = Returned (box_muller_value
                 (int_to_real_double_u64 (2 ^ 62))
                 (int_to_real_double_u64 (2 ^ 61)))
              (mk_state [] false)
/\ spec_box_muller (P := Replay.platform) 2 st_sto
   = Returned (box_muller_value
                 (int_to_real_double_u64 (2 ^ 63))
                 (int_to_real_double_u64 (2 ^ 62)))
              (mk_state [2 ^ 61] false)
/\ random_normal_box_muller (P := Replay.platform) 2 st_sto
   <> spec_box_muller (P := Replay.platform) 2 st_sto.
Proof.
vm_compute. repeat split. discriminate.
Qed.

Lemma box_muller_redraws_pairs_witness :
accepts_at (P := Replay.platform) 1 st_sto
/\ (1 < 2)%nat
/\ random_normal_box_muller (P := Replay.platform) 2 st_sto
   = Returned (D.sqrt (D.neg D.two
                       * log (nth_uniform (2 * 1) st_sto))
               * cos (two_pi * nth_uniform (2 * 1 + 1) st_sto))%real
              (advance (2 * 1 + 2) st_sto).
Proof.
assert (Hacc : accepts_at (P := Replay.platform) 1 st_sto).
{ split; [| reflexivity].
  intros i Hi. assert (i = O) by lia. subst i. reflexivity. }
split; [exact Hacc |]. split; [lia |].
apply (box_muller_redraws_pairs Replay.platform 1 2 st_sto Hacc). lia.
Defined.

Lemma raw_seed_checks_length_witness :
0 < 4
/\ raw_seed uint64_t 4 (firstn 31 bytes_1_to_32)
   = inl "Expected raw vector of length as multiple of 32 for 'seed'"%string
/\ raw_seed uint64_t 4 bytes_1_to_32
   = inr [0x0807060504030201; 0x100f0e0d0c0b0a09;
          0x1817161514131211; 0x201f1e1d1c1b1a19]
/\ exists seed : list Z,
     raw_seed uint64_t 4 bytes_1_to_32 = inr seed
     /\ Z.of_nat (List.length seed) = 4
     /\ (nth 1 seed 0 / 256 ^ 2) mod 256
        = Z.of_N (Byte.to_N (nth 10 bytes_1_to_32 x00)).
Proof.
split; [lia |].
pose proof (raw_seed_checks_length uint64_t 4 (firstn 31 bytes_1_to_32)
              ltac:(lia)) as [H31 _].
pose proof (raw_seed_checks_length uint64_t 4 bytes_1_to_32
              ltac:(lia)) as [_ H32].
split; [| split].
- apply H31. right. discriminate.
- reflexivity.
- destruct (H32 eq_refl eq_refl) as (seed & Hs & Hl & _ & _ & Hv).
  assert (Hl4 : Z.of_nat (List.length seed) = 4) by exact Hl.
  exists seed. split; [exact Hs |]. split; [exact Hl4 |].
  assert (Hi : (1 < List.length seed)%nat) by lia.
  destruct (Hv 1%nat Hi) as [_ Hd].
  apply (Hd 2%nat). simpl. lia.
Defined.

End Examples.

(** * Properties of the rest of the sources *)

(** ** rotl *)

Lemma bits_above (w x i : Z) :
  0 <= x < 2 ^ w -> w <= i -> Z.testbit x i = false.
Proof.
  intros Hx Hi.
  destruct (Z_lt_le_dec w 0) as [Hw | Hw].
  - rewrite Z.pow_neg_r in Hx by lia. lia.
  - rewrite <- (Z.mod_small x (2 ^ w)) by lia.
    apply Z.mod_pow2_bits_high. lia.
Qed.

Lemma below_of_bits (w x : Z) :
  0 <= w -> 0 <= x -> (forall i, w <= i -> Z.testbit x i = false) ->
  x < 2 ^ w.
Proof.
  intros Hw Hx H.
  assert (Hmod : x mod 2 ^ w = x).
  { apply Z.bits_inj'. intros n Hn.
    destruct (Z_lt_le_dec n w) as [Hlt | Hge].
    - apply Z.mod_pow2_bits_low. lia.
    - rewrite Z.mod_pow2_bits_high by lia. symmetry. now apply H. }
  rewrite <- Hmod. apply Z.mod_pos_bound. apply Z.pow_pos_nonneg; lia.
Qed.

(** The rotation, for a word of [w] bits. *)
Lemma rotl_bits (w x k i : Z) :
  0 <= x < 2 ^ w -> 0 < k < w -> 0 <= i < w ->
  Z.testbit (Z.lor (Z.shiftl x k mod 2 ^ w) (Z.shiftr x (w - k))) i
  = Z.testbit x ((i - k) mod w).
Proof.
  intros Hx Hk Hi.
  rewrite Z.lor_spec, Z.mod_pow2_bits_low by lia.
  rewrite Z.shiftl_spec, Z.shiftr_spec by lia.
  destruct (Z_lt_le_dec i k) as [Hlt | Hge].
  - rewrite (Z.testbit_neg_r x (i - k)) by lia. simpl.
    f_equal.
    apply (Z.mod_unique (i - k) w (-1) (i + (w - k))); lia.
  - rewrite (bits_above w x (i + (w - k))) by lia.
    rewrite orb_false_r. f_equal. symmetry. apply Z.mod_small. lia.
Qed.

Lemma rotl_high_bits (w x k i : Z) :
  0 <= x < 2 ^ w -> 0 < k < w -> w <= i ->
  Z.testbit (Z.lor (Z.shiftl x k mod 2 ^ w) (Z.shiftr x (w - k))) i
  = false.
Proof.
  intros Hx Hk Hi.
  rewrite Z.lor_spec, Z.mod_pow2_bits_high by lia.
  rewrite Z.shiftr_spec by lia. simpl.
  apply (bits_above w); lia.
Qed.

Lemma rotl_range (w x k : Z) :
  0 <= x < 2 ^ w -> 0 < k < w ->
  0 <= Z.lor (Z.shiftl x k mod 2 ^ w) (Z.shiftr x (w - k)) < 2 ^ w.
Proof.
  intros Hx Hk.
  assert (Hp : 0 < 2 ^ w) by (apply Z.pow_pos_nonneg; lia).
  assert (H0 : 0 <= Z.lor (Z.shiftl x k mod 2 ^ w) (Z.shiftr x (w - k))).
  { apply Z.lor_nonneg. split.
    - apply Z.mod_pos_bound. exact Hp.
    - apply Z.shiftr_nonneg. lia. }
  split; [exact H0 |].
  apply below_of_bits; [lia | exact H0 |].
  intros i Hi. now apply rotl_high_bits.
Qed.

Lemma rotl_inverse (w x k : Z) :
  0 <= x < 2 ^ w -> 0 < k < w ->
  let y := Z.lor (Z.shiftl x k mod 2 ^ w) (Z.shiftr x (w - k)) in
  Z.lor (Z.shiftl y (w - k) mod 2 ^ w) (Z.shiftr y (w - (w - k))) = x.
Proof.
  intros Hx Hk y.
  pose proof (rotl_range w x k Hx Hk) as Hy. fold y in Hy.
  apply Z.bits_inj'. intros i Hi.
  destruct (Z_lt_le_dec i w) as [Hlt | Hge].
  - rewrite rotl_bits by lia. unfold y. rewrite rotl_bits; try lia.
    + f_equal. rewrite Zminus_mod_idemp_l.
      replace (i - (w - k) - k) with (i + (-1) * w) by lia.
      rewrite Z.mod_add by lia. apply Z.mod_small. lia.
    + apply Z.mod_pos_bound. lia.
  - rewrite rotl_high_bits by lia. symmetry. apply (bits_above w); lia.
Qed.

(** X1.  For a 64-bit word [x] and [0 < k < 64], [rotl(x, k)] is a
    64-bit word whose bit [i] is bit [(i - k) mod 64] of [x]: the bits
    are rotated left by [k] places and none is lost, so that rotating
    on by [64 - k] gives [x] back. *)
Theorem rotl64_rotates (x k : Z)
        (Hx : 0 <= x < 2 ^ 64) (Hk : 0 < k < 64) :
  0 <= rotl64 x k < 2 ^ 64
  /\ (forall i, 0 <= i < 64 ->
                Z.testbit (rotl64 x k) i = Z.testbit x ((i - k) mod 64))
  /\ rotl64 (rotl64 x k) (64 - k) = x.
Proof.
  split; [now apply rotl_range |]. split.
  - intros i Hi. now apply rotl_bits.
  - exact (rotl_inverse 64 x k Hx Hk).
Qed.

Lemma rotl64_rotates_witness :
  0 <= 0x8000000000000001 < 2 ^ 64 /\ 0 < 4 < 64
  /\ rotl64 (rotl64 0x8000000000000001 4) (64 - 4) = 0x8000000000000001.
Proof.
  split; [lia |]. split; [lia |].
  apply (rotl64_rotates 0x8000000000000001 4); lia.
Defined.

(** X2.  The 32-bit overload: for a 32-bit word [x] and [0 < k < 32],
    [rotl(x, k)] is a 32-bit word whose bit [i] is bit [(i - k) mod 32]
    of [x], and rotating on by [32 - k] gives [x] back. *)
Theorem rotl32_rotates (x k : Z)
        (Hx : 0 <= x < 2 ^ 32) (Hk : 0 < k < 32) :
  0 <= rotl32 x k < 2 ^ 32
  /\ (forall i, 0 <= i < 32 ->
                Z.testbit (rotl32 x k) i = Z.testbit x ((i - k) mod 32))
  /\ rotl32 (rotl32 x k) (32 - k) = x.
Proof.
  split; [now apply rotl_range |]. split.
  - intros i Hi. now apply rotl_bits.
  - exact (rotl_inverse 32 x k Hx Hk).
Qed.

Lemma rotl32_rotates_witness :
  0 <= 0x80000001 < 2 ^ 32 /\ 0 < 7 < 32
  /\ rotl32 (rotl32 0x80000001 7) (32 - 7) = 0x80000001.
Proof.
  split; [lia |]. split; [lia |].
  apply (rotl32_rotates 0x80000001 7); lia.
Defined.

(** ** splitmix64 *)

(** [z ^ (z >> k)] can be undone: equal results come from equal words. *)
Lemma xorshift_bits_eq (k a b : Z) :
  0 < k -> 0 <= a < 2 ^ 64 -> 0 <= b < 2 ^ 64 ->
  Z.lxor a (Z.shiftr a k) = Z.lxor b (Z.shiftr b k) ->
  forall (d : nat) (n : Z),
    0 <= n -> 64 <= n + Z.of_nat d -> Z.testbit a n = Z.testbit b n.
Proof.
  intros Hk Ha Hb Heq.
  induction d as [| d IH]; intros n Hn Hd.
  - rewrite (bits_above 64 a n), (bits_above 64 b n) by lia. reflexivity.
  - assert (Hbit : Z.testbit (Z.lxor a (Z.shiftr a k)) n
                   = Z.testbit (Z.lxor b (Z.shiftr b k)) n)
      by now rewrite Heq.
    rewrite !Z.lxor_spec, !Z.shiftr_spec in Hbit by lia.
    rewrite (IH (n + k)) in Hbit by lia.
    destruct (Z.testbit a n), (Z.testbit b n), (Z.testbit b (n + k));
      simpl in Hbit; congruence.
Qed.

Lemma xorshift_inj (k a b : Z) :
  0 < k -> 0 <= a < 2 ^ 64 -> 0 <= b < 2 ^ 64 ->
  Z.lxor a (Z.shiftr a k) = Z.lxor b (Z.shiftr b k) -> a = b.
Proof.
  intros Hk Ha Hb Heq. apply Z.bits_inj'. intros n Hn.
  apply (xorshift_bits_eq k a b Hk Ha Hb Heq (Z.to_nat 64) n); lia.
Qed.

Lemma xorshift_range (k a : Z) :
  0 < k -> 0 <= a < 2 ^ 64 ->
  0 <= Z.lxor a (Z.shiftr a k) < 2 ^ 64.
Proof.
  intros Hk Ha.
  assert (Hs : 0 <= Z.shiftr a k) by (apply Z.shiftr_nonneg; lia).
  assert (H0 : 0 <= Z.lxor a (Z.shiftr a k)) by (apply Z.lxor_nonneg; lia).
  split; [exact H0 |].
  apply below_of_bits; [lia | exact H0 |].
  intros i Hi. rewrite Z.lxor_spec, Z.shiftr_spec by lia.
  rewrite (bits_above 64 a i), (bits_above 64 a (i + k)) by lia.
  reflexivity.
Qed.

(** Multiplication by an odd constant is undone by multiplication by
    its inverse modulo [2^64]. *)
Lemma mul_mod_inj (m m' a b : Z) :
  (m * m') mod 2 ^ 64 = 1 ->
  0 <= a < 2 ^ 64 -> 0 <= b < 2 ^ 64 ->
  (a * m) mod 2 ^ 64 = (b * m) mod 2 ^ 64 -> a = b.
Proof.
  intros Hinv Ha Hb Heq.
  assert (Hback : forall c, 0 <= c < 2 ^ 64 ->
                            ((c * m) mod 2 ^ 64 * m') mod 2 ^ 64 = c).
  { intros c Hc.
    rewrite Z.mul_mod_idemp_l by lia.
    rewrite <- Z.mul_assoc, <- Z.mul_mod_idemp_r by lia.
    rewrite Hinv, Z.mul_1_r. apply Z.mod_small. lia. }
  rewrite <- (Hback a Ha), <- (Hback b Hb), Heq. reflexivity.
Qed.

Lemma add_mod_inj (c a b : Z) :
  0 <= a < 2 ^ 64 -> 0 <= b < 2 ^ 64 ->
  (a + c) mod 2 ^ 64 = (b + c) mod 2 ^ 64 -> a = b.
Proof.
  intros Ha Hb Heq.
  assert (Hback : forall x, 0 <= x < 2 ^ 64 ->
                            ((x + c) mod 2 ^ 64 - c) mod 2 ^ 64 = x).
  { intros x Hx. rewrite Zminus_mod_idemp_l.
    replace (x + c - c) with x by lia. apply Z.mod_small. lia. }
  rewrite <- (Hback a Ha), <- (Hback b Hb), Heq. reflexivity.
Qed.

(** X3.  [splitmix64] maps 64-bit words to 64-bit words and is
    injective on them: two different seeds never give the same
    output. *)
Theorem splitmix64_injective (a b : Z)
        (Ha : 0 <= a < 2 ^ 64) (Hb : 0 <= b < 2 ^ 64) :
  0 <= splitmix64 a < 2 ^ 64
  /\ (splitmix64 a = splitmix64 b -> a = b).
Proof.
  assert (Hm : forall x, 0 <= x mod 2 ^ 64 < 2 ^ 64)
    by (intros x; apply Z.mod_pos_bound; lia).
  unfold splitmix64. cbv zeta. split.
  - apply xorshift_range; [lia | apply Hm].
  - intros H.
    apply xorshift_inj in H; [| lia | apply Hm | apply Hm].
    apply (mul_mod_inj _ 0x319642b2d24d8ec3) in H;
      [| reflexivity | apply xorshift_range; [lia | apply Hm] ..].
    apply xorshift_inj in H; [| lia | apply Hm | apply Hm].
    apply (mul_mod_inj _ 0x96de1b173f119089) in H;
      [| reflexivity | apply xorshift_range; [lia | apply Hm] ..].
    apply xorshift_inj in H; [| lia | apply Hm | apply Hm].
    now apply (add_mod_inj _ a b) in H.
Qed.

Lemma splitmix64_injective_witness :
  0 <= 0 < 2 ^ 64 /\ 0 <= 1 < 2 ^ 64
  /\ 0 <= splitmix64 0 < 2 ^ 64
  /\ (splitmix64 0 = splitmix64 1 -> 0 = 1).
Proof.
  split; [lia |]. split; [lia |].
  apply (splitmix64_injective 0 1); lia.
Defined.

(** ** operator== on generator states *)

Lemma std_equal_eq (l1 l2 : list Z) :
  List.length l1 = List.length l2 ->
  (std_equal l1 l2 = true <-> l1 = l2).
Proof.
  revert l2. induction l1 as [| x l1 IH]; intros [| y l2] Hlen;
    try discriminate Hlen; simpl.
  - split; reflexivity.
  - injection Hlen as Hlen. rewrite andb_true_iff, Z.eqb_eq, (IH l2 Hlen).
    split.
    + intros [-> ->]. reflexivity.
    + intros H. injection H as -> ->. split; reflexivity.
Qed.

(** X4.  For two states of the same algorithm (arrays of one length
    [N]), [lhs == rhs] is true exactly when the two have the same
    [deterministic] flag and the same [N] words, and [lhs != rhs] is its
    negation. *)
Theorem state_eq_reflects (lhs rhs : xoshiro_state)
        (HN : List.length (state lhs) = List.length (state rhs)) :
  (state_eq lhs rhs = true <-> lhs = rhs)
  /\ (state_ne lhs rhs = true <-> lhs <> rhs).
Proof.
  assert (H : state_eq lhs rhs = true <-> lhs = rhs).
  { unfold state_eq. rewrite andb_true_iff, (std_equal_eq _ _ HN).
    destruct lhs as [l1 d1], rhs as [l2 d2]. simpl. split.
    - intros [Hd ->]. apply Bool.eqb_prop in Hd. now subst.
    - intros H. injection H as -> ->. split; [apply Bool.eqb_reflx | easy]. }
  split; [exact H |].
  unfold state_ne. rewrite negb_true_iff.
  destruct (state_eq lhs rhs) eqn:E; split; intros H'.
  - discriminate H'.
  - elim H'. now apply H.
  - intros Heq. apply H in Heq. discriminate Heq.
  - reflexivity.
Qed.

Lemma state_eq_reflects_witness :
  List.length (state (mk_state [1; 2] false))
  = List.length (state (mk_state [1; 3] false))
  /\ (state_ne (mk_state [1; 2] false) (mk_state [1; 3] false) = true
      <-> mk_state [1; 2] false <> mk_state [1; 3] false).
Proof.
  split; [reflexivity |].
  apply (state_eq_reflects (mk_state [1; 2] false) (mk_state [1; 3] false)).
  reflexivity.
Defined.

(** ** Bytes and integers *)

Lemma byte_of_Z_to_N (z : Z) :
  0 <= z < 256 -> Z.of_N (Byte.to_N (byte_of_Z z)) = z.
Proof.
  intros Hz. unfold byte_of_Z.
  destruct (Byte.of_N (Z.to_N z)) as [b |] eqn:E.
  - apply Byte.to_of_N in E. rewrite E. lia.
  - apply Byte.of_N_None_iff in E. lia.
Qed.

Lemma byte_of_Z_of_byte (b : byte) :
  byte_of_Z (Z.of_N (Byte.to_N b)) = b.
Proof.
  unfold byte_of_Z. rewrite N2Z.id, Byte.of_to_N. reflexivity.
Qed.

Lemma le_bytes_length (w : nat) (x : Z) : List.length (le_bytes w x) = w.
Proof.
  revert x. induction w as [| w IH]; intros x; simpl;
    [reflexivity | now rewrite IH].
Qed.

Lemma le_word_le_bytes (w : nat) :
  forall x, 0 <= x < 256 ^ Z.of_nat w -> le_word (le_bytes w x) = x.
Proof.
  induction w as [| w IH]; intros x Hx.
  - simpl in *. lia.
  - rewrite Nat2Z.inj_succ, Z.pow_succ_r in Hx by lia.
    cbn [le_bytes le_word].
    rewrite byte_of_Z_to_N by (apply Z.mod_pos_bound; lia).
    rewrite IH.
    + rewrite (Z.div_mod x 256) at 3 by lia. lia.
    + split; [apply Z.div_pos; lia |].
      apply Z.div_lt_upper_bound; lia.
Qed.

Lemma le_bytes_le_word (bs : list byte) :
  le_bytes (List.length bs) (le_word bs) = bs.
Proof.
  induction bs as [| b bs IH]; [reflexivity |].
  cbn [List.length le_bytes le_word].
  pose proof (byte_range b) as Hb.
  replace ((Z.of_N (Byte.to_N b) + 256 * le_word bs) mod 256)
    with (Z.of_N (Byte.to_N b)).
  - replace ((Z.of_N (Byte.to_N b) + 256 * le_word bs) / 256)
      with (le_word bs).
    + now rewrite byte_of_Z_of_byte, IH.
    + apply (Z.div_unique _ 256 (le_word bs) (Z.of_N (Byte.to_N b))); lia.
  - apply (Z.mod_unique _ 256 (le_word bs)); lia.
Qed.

Lemma unpack_pack (w : nat) (words : list Z) :
  Forall (fun x => 0 <= x < 256 ^ Z.of_nat w) words ->
  unpack (List.length words) w (pack w words) = words.
Proof.
  induction 1 as [| x words Hx _ IH]; [reflexivity |].
  cbn [List.length unpack pack flat_map].
  pose proof (le_bytes_length w x) as Hl.
  rewrite firstn_app, skipn_app, Hl, Nat.sub_diag.
  rewrite firstn_all2, skipn_all2 by lia.
  simpl firstn. simpl skipn. rewrite app_nil_r. simpl app.
  rewrite le_word_le_bytes by exact Hx.
  f_equal. exact IH.
Qed.

Lemma pack_unpack (w n : nat) :
  forall bs, List.length bs = (n * w)%nat -> pack w (unpack n w bs) = bs.
Proof.
  induction n as [| n IH]; intros bs Hlen.
  - destruct bs; [reflexivity | discriminate Hlen].
  - cbn [unpack pack flat_map].
    assert (Hf : List.length (firstn w bs) = w)
      by (rewrite length_firstn; simpl in Hlen; lia).
    rewrite <- Hf at 1. rewrite le_bytes_le_word.
    fold (pack w (unpack n w (skipn w bs))).
    rewrite IH by (rewrite length_skipn; simpl in Hlen; lia).
    apply firstn_skipn.
Qed.

Lemma unpack_range (n w : nat) :
  forall bs, Forall (fun x => 0 <= x < 256 ^ Z.of_nat w) (unpack n w bs).
Proof.
  induction n as [| n IH]; intros bs; simpl; constructor; [| apply IH].
  pose proof (le_word_range (firstn w bs)) as H.
  assert (Hl : (List.length (firstn w bs) <= w)%nat)
    by (rewrite length_firstn; lia).
  split; [lia |].
  apply Z.lt_le_trans with (256 ^ Z.of_nat (List.length (firstn w bs)));
    [lia | apply Z.pow_le_mono_r; lia].
Qed.

(** ** Raw seeds and exported states *)

Lemma pack_length (w : nat) (words : list Z) :
  List.length (pack w words) = (List.length words * w)%nat.
Proof.
  induction words as [| x words IH]; [reflexivity |].
  cbn [pack flat_map List.length].
  rewrite length_app, le_bytes_length. fold (pack w words).
  rewrite IH. lia.
Qed.

(** The buffer [rng_state_vector] writes passes the length check of
    [raw_seed]. *)
Lemma raw_seed_of_pack_reads
      (t : int_type) (N : Z) (words : list Z) :
  0 < N ->
  0 < Z.of_nat (List.length words) ->
  Z.of_nat (List.length words) mod N = 0 ->
  raw_seed t N (pack (Z.to_nat (sizeof t)) words)
  = inr (unpack (List.length words) (Z.to_nat (sizeof t))
                (pack (Z.to_nat (sizeof t)) words)).
Proof.
  intros HN Hlen Hmul.
  pose proof (sizeof_pos t) as Hw.
  unfold raw_seed. rewrite pack_length.
  rewrite Nat2Z.inj_mul, Z2Nat.id by lia.
  set (n := Z.of_nat (List.length words)) in *.
  assert (Hz : (n * sizeof t =? 0) = false) by (apply Z.eqb_neq; nia).
  assert (Hm : (n * sizeof t) mod (sizeof t * N) = 0).
  { apply Z.div_exact in Hmul; [| lia].
    rewrite Hmul at 1.
    replace (N * (n / N) * sizeof t) with (n / N * (sizeof t * N)) by lia.
    apply Z.mod_mul. lia. }
  rewrite Hz, Hm. simpl.
  rewrite Z.div_mul by lia. unfold n. rewrite Nat2Z.id.
  reflexivity.
Qed.

(** X5.  [raw_seed] reads back what [rng_state_vector]'s [memcpy]
    writes: for a vector of integers that fit [int_type], whose length
    is a positive multiple of the state size, [raw_seed] on its bytes
    succeeds and returns exactly that vector. *)
Theorem raw_seed_of_packed
        (t : int_type) (N : Z) (words : list Z)
        (HN : 0 < N)
        (Hlen : 0 < Z.of_nat (List.length words))
        (Hmul : Z.of_nat (List.length words) mod N = 0)
        (Hfit : Forall (fun x => 0 <= x < 2 ^ (8 * sizeof t)) words) :
  raw_seed t N (pack (Z.to_nat (sizeof t)) words) = inr words.
Proof.
  rewrite raw_seed_of_pack_reads by assumption.
  f_equal. apply unpack_pack.
  rewrite word_bound. exact Hfit.
Qed.

Lemma raw_seed_of_packed_witness :
  0 < 2 /\ 0 < Z.of_nat (List.length [1; 2 ^ 64 - 1; 0; 7])
  /\ Z.of_nat (List.length [1; 2 ^ 64 - 1; 0; 7]) mod 2 = 0
  /\ raw_seed uint64_t 2
       (pack (Z.to_nat (sizeof uint64_t)) [1; 2 ^ 64 - 1; 0; 7])
     = inr [1; 2 ^ 64 - 1; 0; 7].
Proof.
  split; [lia |]. split; [reflexivity |]. split; [reflexivity |].
  apply (raw_seed_of_packed uint64_t 2 [1; 2 ^ 64 - 1; 0; 7]);
    try reflexivity.
  repeat constructor; try lia; reflexivity.
Defined.

(** X6.  What [raw_seed] returns holds the buffer without loss: every
    integer fits [int_type], and writing the integers back byte by byte
    gives the buffer again. *)
Theorem raw_seed_keeps_bytes
        (t : int_type) (N : Z) (seed_data : list byte) (seed : list Z)
        (HN : 0 < N)
        (Hseed : raw_seed t N seed_data = inr seed) :
  Forall (fun x => 0 <= x < 2 ^ (8 * sizeof t)) seed
  /\ pack (Z.to_nat (sizeof t)) seed = seed_data.
Proof.
  pose proof (sizeof_pos t) as Hw.
  unfold raw_seed in Hseed.
  set (size := Z.of_nat (List.length seed_data)) in *.
  destruct ((size =? 0) || negb (size mod (sizeof t * N) =? 0)) eqn:E;
    [discriminate Hseed |].
  apply orb_false_iff in E. destruct E as [_ E].
  apply negb_false_iff, Z.eqb_eq in E.
  injection Hseed as <-. split.
  - rewrite <- word_bound. apply unpack_range.
  - apply pack_unpack.
    apply Z.div_exact in E; [| lia].
    set (q := size / (sizeof t * N)) in E.
    assert (Hdiv : size / sizeof t = N * q).
    { rewrite E. replace (sizeof t * N * q) with (N * q * sizeof t) by lia.
      apply Z.div_mul. lia. }
    assert (0 <= size / sizeof t) by (apply Z.div_pos; lia).
    assert (Hsz : size = size / sizeof t * sizeof t) by (rewrite Hdiv; lia).
    unfold size in Hsz at 1. lia.
Qed.

Lemma raw_seed_keeps_bytes_witness :
  0 < 4
  /\ raw_seed uint32_t 4 (repeat xff 16) = inr (repeat (2 ^ 32 - 1) 4)
  /\ pack (Z.to_nat (sizeof uint32_t)) (repeat (2 ^ 32 - 1) 4)
     = repeat xff 16.
Proof.
  split; [lia |]. split; [reflexivity |].
  apply (raw_seed_keeps_bytes uint32_t 4 (repeat xff 16)
           (repeat (2 ^ 32 - 1) 4)); [lia | reflexivity].
Defined.

(** ** algorithm_name *)

(** X7.  The twelve generator types that [algorithm_name] lists have
    twelve different names, none of them empty; the empty name is what
    every other type gets.  So the comparison in [rng_pointer_get] tells
    any listed type from every other type. *)
Theorem algorithm_name_injective (T U : rng_state_type) :
  (algorithm_name T = algorithm_name U -> T = U)
  /\ (algorithm_name T = ""%string <-> T = unlisted_type)
  /\ (String.eqb (algorithm_name T) (algorithm_name U) = true <-> T = U).
Proof.
  assert (Hinj : algorithm_name T = algorithm_name U -> T = U)
    by (destruct T, U; intros H; try reflexivity; discriminate H).
  split; [exact Hinj |]. split.
  - split.
    + destruct T; intros H; try reflexivity; discriminate H.
    + intros ->. reflexivity.
  - rewrite String.eqb_eq. split; [exact Hinj | now intros ->].
Qed.

(** ** The rng pointer object *)

Section RngPointerFacts.
Variable prng : Type.
Variable new_prng : Z -> list Z -> prng.
Variable prng_size : prng -> Z.
Variable export_state : prng -> list Z.
Variable T : rng_state_type.
Variable int_t : int_type.
Variable N : Z.

Local Notation "'get'" :=
  (rng_pointer_get prng new_prng prng_size T int_t N).
Local Notation "'sync'" := (rng_pointer_sync prng export_state int_t).
Local Notation "'restore'" := (rng_pointer_restore prng new_prng int_t N).
Local Notation "'vector'" := (rng_state_vector prng export_state int_t).


Lemma restore_frame (h : list prng) (obj : rng_pointer) h1 obj1 a :
  restore h obj = r_value (h1, obj1, a) ->
  algorithm obj1 = algorithm obj /\ state_ obj1 = state_ obj
  /\ is_current_ obj1 = is_current_ obj /\ ptr_ obj1 = Some a
  /\ (exists extra, h1 = h ++ extra /\ (List.length extra <= 1)%nat).
Proof.
  unfold rng_pointer_restore.
  destruct (ptr_ obj) as [a0 |] eqn:Ep.
  - intros H. injection H as <- <- <-. repeat split; try assumption.
    exists []. rewrite app_nil_r. split; [reflexivity | simpl; lia].
  - destruct (negb (is_current_ obj)); [discriminate |].
    destruct (raw_seed int_t N (state_ obj)) as [m | seed]; [discriminate |].
    intros H. injection H as <- <- <-. repeat split.
    eexists. split; [reflexivity | simpl; lia].
Qed.

(** What a returned pointer implies for the object. *)
Lemma get_returns
      (h h1 : list prng) (obj obj1 : rng_pointer) (n_streams : Z)
      (a : nat) :
  get h obj n_streams = (h1, obj1, r_value a) ->
  algorithm obj1 = algorithm obj
  /\ is_current_ obj1 = false /\ ptr_ obj1 = Some a.
Proof.
  unfold rng_pointer_get. cbv zeta.
  destruct (negb (String.eqb (algorithm obj) (algorithm_name T)));
    [discriminate |].
  destruct (restore h obj) as [[[h0 obj0] a0] | m |] eqn:Er;
    [| discriminate | discriminate].
  apply restore_frame in Er. destruct Er as (Ha & _ & _ & Hp & _).
  destruct (0 <? n_streams).
  - destruct (nth_error h0 a0) as [rng |]; [| discriminate].
    destruct (to_int (prng_size rng) <? n_streams); [discriminate |].
    intros H. injection H as <- <- <-. simpl. auto.
  - intros H. injection H as <- <- <-. simpl. auto.
Qed.

(** X8.  [rng_pointer_get] never changes the fields [algorithm] and
    [state_], and never touches a generator that exists: the store stays
    as it is or gains one generator.  When it returns a pointer, the
    object's type name is the expected one, [ptr_] holds the returned
    pointer and [is_current_] has been set to false; when it does not,
    [is_current_] is as it was. *)
Theorem rng_pointer_get_frame
        (h : list prng) (obj : rng_pointer) (n_streams : Z) :
  let h' := fst (fst (get h obj n_streams)) in
  let obj' := snd (fst (get h obj n_streams)) in
  algorithm obj' = algorithm obj
  /\ state_ obj' = state_ obj
  /\ (exists extra, h' = h ++ extra /\ (List.length extra <= 1)%nat)
  /\ match snd (get h obj n_streams) with
     | r_value a =>
         is_current_ obj' = false /\ ptr_ obj' = Some a
         /\ algorithm obj = algorithm_name T
     | _ => is_current_ obj' = is_current_ obj
     end.
Proof.
  assert (Hnil : exists extra : list prng,
             h = h ++ extra /\ (List.length extra <= 1)%nat).
  { exists []. rewrite app_nil_r. split; [reflexivity | simpl; lia]. }
  unfold rng_pointer_get. cbv zeta.
  destruct (String.eqb (algorithm obj) (algorithm_name T)) eqn:Ealg;
    simpl negb; cbv iota; [| split_all].
  apply String.eqb_eq in Ealg.
  destruct (restore h obj) as [[[h1 obj1] a] | m |] eqn:Er;
    [| split_all | split_all].
  apply restore_frame in Er.
  destruct Er as (Ha & Hs & Hc & Hp & Hext).
  destruct (0 <? n_streams); [| split_all].
  destruct (nth_error h1 a) as [rng |]; [| split_all].
  destruct (to_int (prng_size rng) <? n_streams); split_all.
Qed.

(** X9.  A state that was not synced is never turned into a
    generator: with a null [ptr_] and [is_current_] false,
    [rng_pointer_get] stops with an R error, whatever [state_] holds and
    whatever [n_streams] is, and leaves store and object as they were. *)
Theorem rng_pointer_get_refuses_stale
        (h : list prng) (obj : rng_pointer) (n_streams : Z)
        (Hnull : ptr_ obj = None) (Hstale : is_current_ obj = false) :
  exists message,
    get h obj n_streams = (h, obj, r_stop message)
    /\ (algorithm obj = algorithm_name T -> message = not_synced_message).
Proof.
  unfold rng_pointer_get, rng_pointer_restore. cbv zeta.
  rewrite Hnull, Hstale.
  destruct (String.eqb (algorithm obj) (algorithm_name T)) eqn:Ealg;
    simpl negb; cbv iota.
  - eexists. split; [reflexivity | reflexivity].
  - eexists. split; [reflexivity |].
    intros H. apply String.eqb_eq in H. congruence.
Qed.

(** X10.  [rng_pointer_sync] leaves an object that is current; on one
    that is not it replaces [state_] by the bytes of the generator
    [ptr_] points to and sets [is_current_].  It changes neither [ptr_]
    nor [algorithm], raises no R error, and doing it twice is the same
    as doing it once.  It is undefined exactly when the object is not
    current and [ptr_] is null or dangling. *)
Theorem rng_pointer_sync_spec (h : list prng) (obj : rng_pointer) :
  (forall obj1,
      sync h obj = r_value obj1 ->
      is_current_ obj1 = true
      /\ ptr_ obj1 = ptr_ obj /\ algorithm obj1 = algorithm obj
      /\ (is_current_ obj = true -> obj1 = obj)
      /\ (is_current_ obj = false ->
          exists a rng, ptr_ obj = Some a /\ nth_error h a = Some rng
                        /\ state_ obj1 = vector rng)
      /\ sync h obj1 = r_value obj1)
  /\ (forall message, sync h obj <> r_stop message)
  /\ (sync h obj = r_undefined
      <-> is_current_ obj = false
          /\ (ptr_ obj = None
              \/ exists a, ptr_ obj = Some a /\ nth_error h a = None)).
Proof.
  unfold rng_pointer_sync.
  destruct obj as [alg p cur st]. simpl.
  destruct cur; simpl.
  - split; [| split].
    + intros obj1 H. injection H as <-. simpl. repeat split; auto.
      discriminate.
    + discriminate.
    + split; [discriminate | intros [H _]; discriminate H].
  - destruct p as [a |]; [destruct (nth_error h a) as [rng |] eqn:En |].
    + split; [| split].
      * intros obj1 H. injection H as <-. simpl. repeat split; auto.
        -- discriminate.
        -- intros _. exists a, rng. auto.
      * discriminate.
      * split; [discriminate |].
        intros [_ [H | (a' & H & Hn)]]; [discriminate H |].
        injection H as <-. congruence.
    + split; [| split].
      * discriminate.
      * discriminate.
      * split; [| reflexivity]. intros _. split; [reflexivity |].
        right. exists a. auto.
    + split; [| split].
      * discriminate.
      * discriminate.
      * split; [| reflexivity]. intros _. auto.
Qed.

(** X11.  The pointer [rng_pointer_get] returns and the one it leaves in
    [ptr_] are one pointer, and the object is left marked as not
    current: whatever the caller does to the generator through the
    returned pointer, the next [rng_pointer_sync] exports that
    generator as it then is. *)
Theorem rng_pointer_get_then_sync
        (h h1 h2 : list prng) (obj obj1 : rng_pointer) (n_streams : Z)
        (a : nat) (rng2 : prng)
        (Hget : get h obj n_streams = (h1, obj1, r_value a))
        (Hlive : nth_error h2 a = Some rng2) :
  sync h2 obj1
  = r_value (mk_rng_pointer (algorithm obj) (Some a) true (vector rng2)).
Proof.
  destruct (get_returns h h1 obj obj1 n_streams a Hget)
    as (Halg & Hcur & Hptr).
  unfold rng_pointer_sync. rewrite Hcur, Hptr, Hlive, Halg. reflexivity.
Qed.

(** X12.  Checkpoint and restore.  An object that is not current and
    points to a live generator is synced; its pointer is then lost, as
    when the object is saved and loaded.  If the generator exports a
    positive multiple of [N] integers that fit [int_type], the next
    [rng_pointer_get], in any store, builds a new generator from exactly
    the exported integers, with [length / N] streams, puts it in [ptr_]
    and returns it; the test on [n_streams] is made on the new
    generator. *)
Theorem rng_pointer_checkpoint_restore
        (h h2 : list prng) (obj : rng_pointer) (a : nat) (rng : prng)
        (n_streams : Z)
        (HN : 0 < N)
        (Halg : algorithm obj = algorithm_name T)
        (Hptr : ptr_ obj = Some a)
        (Hlive : nth_error h a = Some rng)
        (Hdirty : is_current_ obj = false)
        (Hlen : 0 < Z.of_nat (List.length (export_state rng)))
        (Hmul : Z.of_nat (List.length (export_state rng)) mod N = 0)
        (Hfit : Forall (fun x => 0 <= x < 2 ^ (8 * sizeof int_t))
                       (export_state rng)) :
  let bytes := vector rng in
  let restored :=
    new_prng (Z.of_nat (List.length (export_state rng)) / N)
             (export_state rng) in
  let a' := List.length h2 in
  sync h obj = r_value (mk_rng_pointer (algorithm obj) (Some a) true bytes)
  /\ get h2 (mk_rng_pointer (algorithm obj) None true bytes) n_streams
     = if (0 <? n_streams) && (to_int (prng_size restored) <? n_streams)
       then (h2 ++ [restored],
             mk_rng_pointer (algorithm obj) (Some a') true bytes,
             r_stop (too_few_message n_streams (prng_size restored)))
       else (h2 ++ [restored],
             mk_rng_pointer (algorithm obj) (Some a') false bytes,
             r_value a').
Proof.
  cbv zeta. split.
  - unfold rng_pointer_sync. rewrite Hdirty, Hptr, Hlive. reflexivity.
  - unfold rng_pointer_get, rng_pointer_restore. cbv zeta. simpl.
    rewrite Halg, String.eqb_refl. simpl.
    unfold rng_state_vector.
    rewrite (raw_seed_of_pack_reads int_t N (export_state rng) HN Hlen Hmul).
    rewrite unpack_pack by (rewrite word_bound; exact Hfit).
    rewrite nth_error_app2, Nat.sub_diag by lia. simpl.
    destruct (0 <? n_streams); [| reflexivity].
    destruct (to_int _ <? n_streams); reflexivity.
Qed.

End RngPointerFacts.

(** *** A generator class for the examples: the generator is the list
    of its exported integers, four to a stream. *)

Lemma rng_pointer_get_refuses_stale_witness :
  ptr_ (mk_rng_pointer "xoshiro256plus" None false [x01]) = None
  /\ is_current_ (mk_rng_pointer "xoshiro256plus" None false [x01]) = false
  /\ exists message,
      rng_pointer_get (list Z) (fun _ seed => seed)
        (fun p => Z.of_nat (List.length p) / 4) xoshiro256plus uint64_t 4
        [] (mk_rng_pointer "xoshiro256plus" None false [x01]) 1
      = ([], mk_rng_pointer "xoshiro256plus" None false [x01],
         r_stop message)
      /\ (algorithm (mk_rng_pointer "xoshiro256plus" None false [x01])
          = algorithm_name xoshiro256plus ->
          message = not_synced_message).
Proof.
  split; [reflexivity |]. split; [reflexivity |].
  apply (rng_pointer_get_refuses_stale (list Z) (fun _ seed => seed)
           (fun p => Z.of_nat (List.length p) / 4) xoshiro256plus
           uint64_t 4); reflexivity.
Defined.

Lemma rng_pointer_get_then_sync_witness :
  rng_pointer_get (list Z) (fun _ seed => seed)
    (fun p => Z.of_nat (List.length p) / 4) xoshiro256plus uint64_t 4
    [[1; 2; 3; 4]] (mk_rng_pointer "xoshiro256plus" (Some O) true []) 1
  = ([[1; 2; 3; 4]], mk_rng_pointer "xoshiro256plus" (Some O) false [],
     r_value O)
  /\ nth_error [[5; 6; 7; 8]] O = Some [5; 6; 7; 8]
  /\ rng_pointer_sync (list Z) (fun p => p) uint64_t
       [[5; 6; 7; 8]] (mk_rng_pointer "xoshiro256plus" (Some O) false [])
     = r_value (mk_rng_pointer "xoshiro256plus" (Some O) true
                  (rng_state_vector (list Z) (fun p => p) uint64_t
                     [5; 6; 7; 8])).
Proof.
  split; [reflexivity |]. split; [reflexivity |].
  apply (rng_pointer_get_then_sync (list Z) (fun _ seed => seed)
           (fun p => Z.of_nat (List.length p) / 4) (fun p => p)
           xoshiro256plus uint64_t 4
           [[1; 2; 3; 4]] [[1; 2; 3; 4]] [[5; 6; 7; 8]]
           (mk_rng_pointer "xoshiro256plus" (Some O) true [])
           (mk_rng_pointer "xoshiro256plus" (Some O) false [])
           1 O [5; 6; 7; 8]); reflexivity.
Defined.

Lemma rng_pointer_checkpoint_restore_witness :
  0 < 4
  /\ nth_error [[1; 2; 3; 4]] O = Some [1; 2; 3; 4]
  /\ rng_pointer_get (list Z) (fun _ seed => seed)
       (fun p => Z.of_nat (List.length p) / 4) xoshiro256plus uint64_t 4
       []
       (mk_rng_pointer "xoshiro256plus" None true
          (rng_state_vector (list Z) (fun p => p) uint64_t [1; 2; 3; 4]))
       1
     = ([[1; 2; 3; 4]],
        mk_rng_pointer "xoshiro256plus" (Some O) false
          (rng_state_vector (list Z) (fun p => p) uint64_t [1; 2; 3; 4]),
        r_value O).
Proof.
  split; [lia |]. split; [reflexivity |].
  assert (Hfit : Forall (fun x => 0 <= x < 2 ^ (8 * sizeof uint64_t))
                        [1; 2; 3; 4])
    by (repeat constructor; try lia; reflexivity).
  pose proof (rng_pointer_checkpoint_restore
                (list Z) (fun _ seed => seed)
                (fun p => Z.of_nat (List.length p) / 4) (fun p => p)
                xoshiro256plus uint64_t 4
                [[1; 2; 3; 4]] []
                (mk_rng_pointer "xoshiro256plus" (Some O) false [])
                O [1; 2; 3; 4] 1
                ltac:(lia) eq_refl eq_refl eq_refl eq_refl
                eq_refl eq_refl Hfit) as [_ H].
  exact H.
Defined.

(** ** gamma_rate *)

(** X13.  [gamma_rate(shape, rate)] is [gamma_scale(shape, 1 / rate)] in
    every respect, on every platform and backend: the same failure for
    the same parameters, the same draws, the same result.  Its own call
    of [gamma_validate] never decides anything that the one inside
    [gamma_scale] would not. *)
Theorem gamma_rate_as_scale
        (P : Platform) (b : backend) (fuel : nat)
        (shape rate : D.real_type) (s : xoshiro_state) :
  gamma_rate b fuel shape rate s
  = gamma_scale b fuel shape (D.one / rate)%real s.
Proof.
  unfold gamma_rate. cbv zeta.
  destruct ((shape <? D.zero) || (D.one / rate <? D.zero))%real eqn:E.
  - apply orb_true_iff in E.
    rewrite gamma_scale_rejects by exact E.
    unfold bind at 1. rewrite gamma_validate_rejects by exact E.
    destruct b; reflexivity.
  - apply orb_false_iff in E. destruct E as [Hs Hc].
    unfold bind at 1. rewrite gamma_validate_passes by assumption.
    reflexivity.
Qed.

(** ** The 32-bit integer to [double] conversion keeps the order *)

Lemma int_to_real_double_u32_exact0 (x : Z) :
  0 <= x < 2 ^ 32 ->
  int_to_real_double_u32 x
  = S754_finite false
      (Z.to_pos ((2 * x + 1) * 2 ^ (52 - Zdigits2 x)))
      (Zdigits2 x - 85).
Proof.
  intros Hx. destruct (Z.eq_dec x 0) as [-> | Hne]; [reflexivity |].
  apply int_to_real_double_u32_exact. lia.
Qed.

Lemma Zdigits2_mono (x y : Z) :
  0 <= x <= y -> Zdigits2 x <= Zdigits2 y.
Proof.
  intros Hxy. destruct (Z.eq_dec x 0) as [-> | Hne].
  - apply Zdigits2_nonneg.
  - pose proof (Zdigits2_lower x ltac:(lia)) as Hl.
    pose proof (Zdigits2_upper y ltac:(lia)) as Hu.
    pose proof (Zdigits2_nonneg y) as Hn.
    assert (Zdigits2 x - 1 < Zdigits2 y); [| lia].
    apply (Z.pow_lt_mono_r_iff 2); lia.
Qed.

(** X14.  On 32-bit integers [int_to_real<double>] is strictly
    increasing, hence injective: no two inputs share an output. *)
Theorem int_to_real_double_u32_increasing (x y : Z)
        (Hx : 0 <= x) (Hxy : x < y) (Hy : y <= uint32_max) :
  D.ltb (int_to_real_double_u32 x) (int_to_real_double_u32 y) = true
  /\ int_to_real_double_u32 x <> int_to_real_double_u32 y.
Proof.
  unfold uint32_max in Hy.
  assert (Hlt : D.ltb (int_to_real_double_u32 x) (int_to_real_double_u32 y)
                = true).
  { rewrite !int_to_real_double_u32_exact0 by lia.
    pose proof (Zdigits2_mono x y ltac:(lia)) as Hd.
    pose proof (digits_u32 y ltac:(lia)) as Hdy.
    pose proof (Zdigits2_nonneg x) as Hdx.
    unfold D.ltb, SFltb, SFcompare.
    destruct (Z.compare_spec (Zdigits2 x - 85) (Zdigits2 y - 85))
      as [He | He | He]; [| reflexivity | lia].
    assert (Hdd : Zdigits2 x = Zdigits2 y) by lia.
    rewrite Hdd.
    assert (Hp : 0 < 2 ^ (52 - Zdigits2 y))
      by (apply Z.pow_pos_nonneg; lia).
    set (p := 2 ^ (52 - Zdigits2 y)) in *.
    assert (Hpx : 0 < (2 * x + 1) * p) by nia.
    assert (Hpy : 0 < (2 * y + 1) * p) by nia.
    assert (Hpxy : (2 * x + 1) * p < (2 * y + 1) * p) by nia.
    rewrite Pos.compare_cont_spec.
    rewrite <- Z2Pos.inj_compare by assumption.
    rewrite (proj2 (Z.compare_lt_iff _ _)) by assumption.
    reflexivity. }
  split; [exact Hlt |].
  intros Heq. rewrite Heq in Hlt.
  unfold D.ltb, SFltb in Hlt.
  assert (Hrefl : forall z, SFcompare z z <> Some Lt).
  { intros [sz | sz | | sz mz ez]; try destruct sz; simpl;
      try discriminate;
      rewrite Z.compare_refl, Pos.compare_cont_refl; discriminate. }
  destruct (SFcompare (int_to_real_double_u32 y) (int_to_real_double_u32 y))
    as [[] |] eqn:E; try discriminate Hlt.
  now apply Hrefl in E.
Qed.

Lemma int_to_real_double_u32_increasing_witness :
  0 <= 5 /\ 5 < 6 /\ 6 <= uint32_max
  /\ D.ltb (int_to_real_double_u32 5) (int_to_real_double_u32 6) = true
  /\ int_to_real_double_u32 5 <> int_to_real_double_u32 6.
Proof.
  split; [lia |]. split; [lia |]. split; [unfold uint32_max; lia |].
  apply (int_to_real_double_u32_increasing 5 6);
    unfold uint32_max; lia.
Defined.

(** ** gamma_rate and the sign of the rate *)

(** The quotient of [1.0] by a negative [double] that is not infinite
    is negative: it cannot round to a zero. *)
Lemma reciprocal_of_negative (m : positive) (e : Z) :
  valid_binary 53 1024 (S754_finite true m e) = true ->
  (D.one / S754_finite true m e <? D.zero)%real = true.
Proof.
  intros Hv. simpl in Hv. unfold bounded, canonical_mantissa in Hv.
  apply andb_true_iff in Hv. destruct Hv as [Hc He].
  apply Z.eqb_eq in Hc. apply Z.leb_le in He.
  pose proof (digits2_pos_bounds m) as [Hlo Hup].
  set (d2 := Zpos (digits2_pos m)) in *.
  assert (Hd2 : 1 <= d2) by (unfold d2; lia).
  unfold SpecFloat.fexp in Hc. rewrite emin64 in Hc.
  assert (Hd53 : d2 <= 53) by lia.
  assert (Hemin : -1074 <= e) by lia.
  rewrite one_eq. unfold D.div, fdiv, binary64, prec, emax, SFdiv.
  unfold SFdiv_core_binary. cbv zeta.
  change (Zdigits2 (Zpos 4503599627370496)) with 53.
  change (Zdigits2 (Zpos m)) with d2.
  unfold SpecFloat.fexp. rewrite emin64.
  set (e' := Z.min (Z.max (53 + -52 - (d2 + e) - 53) (-1074)) (-52 - e)).
  assert (He' : -1074 <= e') by (unfold e'; lia).
  assert (Hs : 1 <= -52 - e - e') by (unfold e'; lia).
  set (sh := -52 - e - e') in *.
  assert (Hm' : match sh with
                | 0 => Zpos 4503599627370496
                | Zpos _ => Z.shiftl (Zpos 4503599627370496) sh
                | Zneg _ => 0
                end = 2 ^ (52 + sh)).
  { destruct sh as [| p | p] eqn:E; try lia.
    rewrite Z.shiftl_mul_pow2 by lia.
    change (Zpos 4503599627370496) with (2 ^ 52).
    rewrite <- Z.pow_add_r by lia. reflexivity. }
  rewrite Hm'.
  assert (Hge : Zpos m <= 2 ^ (52 + sh)).
  { assert (2 ^ d2 <= 2 ^ (52 + sh)) by (apply Z.pow_le_mono_r; lia).
    lia. }
  assert (Hq : 0 < 2 ^ (52 + sh) / Zpos m)
    by (apply Z.div_str_pos; lia).
  assert (Hdiv : Z.div_eucl (2 ^ (52 + sh)) (Zpos m)
                 = (2 ^ (52 + sh) / Zpos m, 2 ^ (52 + sh) mod Zpos m)).
  { unfold Z.div, Z.modulo.
    destruct (Z.div_eucl (2 ^ (52 + sh)) (Zpos m)); reflexivity. }
  rewrite Hdiv. simpl xorb.
  set (q := 2 ^ (52 + sh) / Zpos m) in *.
  set (l := new_location (Zpos m) (2 ^ (52 + sh) mod Zpos m)).
  pose proof (binary_round_aux_nonzero 53 1024 prec64_pos true q e' l Hq)
    as Hnz.
  rewrite emin64 in Hnz. specialize (Hnz He').
  destruct (binary_round_aux_shape 53 1024 prec64_pos true q e' l)
    as [H | [H | (m1 & e1 & H & _)]]; [lia | contradiction | |];
    rewrite H; reflexivity.
Qed.

(** For every other rate the quotient is not below zero. *)
Lemma reciprocal_of_other (rate : D.real_type) :
  rate <> S754_zero true ->
  (forall m e, rate <> S754_finite true m e) ->
  (D.one / rate <? D.zero)%real = false.
Proof.
  intros Hz Hf. rewrite one_eq.
  destruct rate as [[] | [] | | [] m e]; try reflexivity;
    try contradiction; try (exfalso; now apply (Hf m e)).
  unfold D.div, fdiv, binary64, prec, emax, SFdiv.
  destruct (SFdiv_core_binary 53 1024 (Zpos 4503599627370496) (-52)
                              (Zpos m) e) as [[mz ez] lz] eqn:E.
  assert (Hmz : 0 <= mz).
  { unfold SFdiv_core_binary in E. cbv zeta in E.
    match type of E with
    | (let '(q, r) := Z.div_eucl ?a ?b in _) = _ =>
        assert (Ha : 0 <= a);
        [| pose proof (Z.div_pos a b Ha ltac:(lia)) as Hd;
           unfold Z.div in Hd;
           destruct (Z.div_eucl a b) as [q r]; simpl in Hd;
           injection E as <- _ _; exact Hd]
    end.
    match goal with
    | |- 0 <= match ?s with _ => _ end =>
        destruct s as [| p | p]; try lia
    end.
    apply Z.shiftl_nonneg. lia. }
  simpl xorb.
  destruct (binary_round_aux_shape 53 1024 prec64_pos false mz ez lz Hmz)
    as [H | [H | (m1 & e1 & H & _)]]; rewrite H; reflexivity.
Qed.

Section GammaRate.
Context {P : Platform}.

(** X15.  For a rate that is a [double], [gamma_rate] fails on the rate's
    account exactly when the rate is negative and finite, or negative
    zero (whose reciprocal is negative infinity).  Every other rate
    passes the check of [1 / rate], also negative infinity: its
    reciprocal is negative zero, which is not below zero, and the call
    then returns [0.0] without a draw. *)
Theorem gamma_rate_checks_reciprocal
        (b : backend) (fuel : nat) (shape rate : D.real_type)
        (s : xoshiro_state)
        (Hvalid : valid_binary 53 1024 rate = true) :
  ((rate = S754_zero true \/ exists m e, rate = S754_finite true m e) ->
   gamma_rate b fuel shape rate s
   = fatal_error b (gamma_message shape (D.one / rate)%real) s)
  /\ (rate <> S754_zero true ->
      (forall m e, rate <> S754_finite true m e) ->
      (shape <? D.zero)%real = false ->
      gamma_validate b shape (D.one / rate)%real s = Returned tt s)
  /\ (rate = S754_infinity true ->
      (shape <? D.zero)%real = false ->
      gamma_rate b fuel shape rate s = Returned D.zero s).
Proof.
  split; [| split].
  - intros Hneg.
    assert (Hlt : (D.one / rate <? D.zero)%real = true).
    { destruct Hneg as [-> | (m & e & ->)]; [reflexivity |].
      now apply reciprocal_of_negative. }
    unfold gamma_rate. cbv zeta. unfold bind at 1.
    rewrite gamma_validate_rejects by now right.
    destruct b; reflexivity.
  - intros Hz Hf Hs. apply gamma_validate_passes; [exact Hs |].
    now apply reciprocal_of_other.
  - intros -> Hs. unfold gamma_rate. cbv zeta. unfold bind at 1.
    rewrite gamma_validate_passes by (exact Hs || reflexivity).
    rewrite gamma_scale_validated by (exact Hs || reflexivity).
    replace (D.one / S754_infinity true =? D.zero)%real with true
      by reflexivity.
    rewrite orb_true_r. reflexivity.
Qed.

End GammaRate.

Lemma gamma_rate_checks_reciprocal_witness :
  valid_binary 53 1024 minus_one = true
  /\ gamma_rate (P := Replay.platform) Host 0 D.one minus_one st_sto
     = fatal_error Host
         (gamma_message (P := Replay.platform) D.one
                        (D.one / minus_one)%real) st_sto.
Proof.
  split; [reflexivity |].
  apply (gamma_rate_checks_reciprocal
           (P := Replay.platform) Host 0 D.one minus_one st_sto eq_refl).
  right. eexists. eexists. reflexivity.
Defined.

(** ** The 64-bit integer to [double] conversion below [2^63] *)

Lemma TWOPOW53_INV_DOUBLE_eq :
  TWOPOW53_INV_DOUBLE = S754_finite false 4503599627370496 (-105)
  /\ D.div TWOPOW53_INV_DOUBLE D.two
     = S754_finite false 4503599627370496 (-106).
Proof. split; reflexivity. Qed.

(** [k * 2^c + 2^(c-1)] for an integer [0 < k < 2^52] is [(2k + 1)
    2^(c-1)], held without rounding. *)
Lemma scaled_plus_half_exact (k c : Z) :
  0 < k < 2 ^ 52 -> -900 <= c <= 0 ->
  D.add (D.mul (D.of_uint k) (S754_finite false 4503599627370496 c))
        (S754_finite false 4503599627370496 (c - 1))
  = S754_finite false
      (Z.to_pos ((2 * k + 1) * 2 ^ (52 - Zdigits2 k)))
      (Zdigits2 k + c - 1).
Proof.
  intros Hk Hc.
  pose proof (Zdigits2_lower k ltac:(lia)) as Hlo.
  pose proof (Zdigits2_upper k ltac:(lia)) as Hup.
  assert (Hd : 1 <= Zdigits2 k <= 52).
  { assert (0 < Zdigits2 k) by (destruct k; simpl; lia).
    assert (Zdigits2 k - 1 < 52); [| lia].
    apply (Z.pow_lt_mono_r_iff 2); lia. }
  destruct k as [| p | p]; try lia.
  simpl Zdigits2 in *. set (d := Zpos (digits2_pos p)) in *.
  assert (HA : 2 ^ (53 - d) = 2 * 2 ^ (52 - d)).
  { replace (53 - d) with (Z.succ (52 - d)) by lia.
    apply Z.pow_succ_r. lia. }
  assert (HC : 0 < 2 ^ (52 - d)) by (apply Z.pow_pos_nonneg; lia).
  assert (Hconv : D.of_uint (Zpos p)
                  = S754_finite false
                      (Z.to_pos (Zpos p * 2 ^ (53 - d))) (d - 53)).
  { unfold D.of_uint, f_of_uint, binary64, prec, emax.
    simpl binary_normalize.
    rewrite (binary_round_exact_shl 53 1024 false p 0);
      fold d; try rewrite emin64; try lia.
    reflexivity. }
  rewrite Hconv. set (a := Z.to_pos (Zpos p * 2 ^ (53 - d))).
  assert (Ha : Zpos a = Zpos p * 2 ^ (53 - d))
    by (unfold a; rewrite Z2Pos.id; nia).
  assert (Hda : Zdigits2 (Zpos a) = 53).
  { rewrite Ha, Zdigits2_mul_pow2 by lia. simpl Zdigits2. fold d. lia. }
  assert (Hmul : D.mul (S754_finite false a (d - 53))
                       (S754_finite false 4503599627370496 c)
                 = S754_finite false a (d + c - 1)).
  { unfold D.mul, fmul, binary64, prec, emax, SFmul. simpl xorb.
    rewrite Pos2Z.inj_mul. change (Zpos 4503599627370496) with (2 ^ 52).
    rewrite (binary_round_aux_exact 53 1024);
      try rewrite emin64; try lia.
    - rewrite Pos2Z.id. f_equal. lia.
    - rewrite Hda. unfold SpecFloat.fexp. rewrite emin64. lia. }
  rewrite Hmul.
  unfold D.add, fadd, binary64, prec, emax, SFadd. cbv zeta.
  replace (Z.min (d + c - 1) (c - 1)) with (c - 1) by lia.
  unfold cond_Zopp. rewrite !shl_align_fst.
  replace (Z.max 0 (d + c - 1 - (c - 1))) with d by lia.
  replace (Z.max 0 (c - 1 - (c - 1))) with 0 by lia.
  rewrite Ha, Z.pow_0_r, Z.mul_1_r.
  change 4503599627370496 with (2 ^ 52).
  set (q := (2 * Zpos p + 1) * 2 ^ (52 - d)).
  assert (HB : 2 ^ (52 - d) * 2 ^ d = 2 ^ 52).
  { rewrite <- Z.pow_add_r by lia. f_equal. lia. }
  assert (Hsum : Zpos p * 2 ^ (53 - d) * 2 ^ d + 2 ^ 52 = q * 2 ^ d).
  { unfold q. rewrite HA. nia. }
  rewrite Hsum.
  assert (Hq : 0 < q) by (unfold q; nia).
  assert (Hpd : 0 < 2 ^ d) by (apply Z.pow_pos_nonneg; lia).
  destruct (q * 2 ^ d) as [| Q | Q] eqn:EP; try nia.
  simpl binary_normalize.
  rewrite (binary_round_exact_shr 53 1024 false Q (c - 1) q d);
    try rewrite emin64; try lia.
  - f_equal; lia.
  - unfold q. rewrite Zdigits2_mul_pow2 by lia.
    assert (HD : 2 ^ d = 2 * 2 ^ (d - 1)).
    { replace d with (Z.succ (d - 1)) at 1 by lia.
      apply Z.pow_succ_r. lia. }
    rewrite (Zdigits2_unique (2 * Zpos p + 1) (d + 1)); try lia.
    replace (d + 1 - 1) with d by lia.
    replace (d + 1) with (Z.succ d) by lia.
    rewrite Z.pow_succ_r by lia. lia.
Qed.

Lemma int_to_real_double_u64_exact (x : Z) :
  0 <= x < 2 ^ 63 ->
  int_to_real_double_u64 x
  = S754_finite false
      (Z.to_pos ((2 * Z.shiftr x 11 + 1)
                 * 2 ^ (52 - Zdigits2 (Z.shiftr x 11))))
      (Zdigits2 (Z.shiftr x 11) - 106).
Proof.
  intros Hx.
  assert (Hk : 0 <= Z.shiftr x 11 < 2 ^ 52).
  { rewrite Z.shiftr_div_pow2 by lia. split.
    - apply Z.div_pos; lia.
    - apply Z.div_lt_upper_bound; lia. }
  unfold int_to_real_double_u64.
  destruct TWOPOW53_INV_DOUBLE_eq as [Hc Hh]. rewrite Hh, Hc.
  generalize dependent (Z.shiftr x 11). intros k Hk.
  destruct (Z.eq_dec k 0) as [-> | Hne]; [reflexivity |].
  pose proof (scaled_plus_half_exact k (-105) ltac:(lia) ltac:(lia)) as H.
  change (-105 - 1) with (-106) in H. rewrite H.
  f_equal. lia.
Qed.

Lemma exact_lt (x y : Z) :
  0 <= x -> x < y -> Zdigits2 y <= 52 ->
  SFltb (S754_finite false
           (Z.to_pos ((2 * x + 1) * 2 ^ (52 - Zdigits2 x)))
           (Zdigits2 x - 106))
        (S754_finite false
           (Z.to_pos ((2 * y + 1) * 2 ^ (52 - Zdigits2 y)))
           (Zdigits2 y - 106)) = true.
Proof.
  intros Hx Hxy Hdy.
  pose proof (Zdigits2_mono x y ltac:(lia)) as Hd.
  pose proof (Zdigits2_nonneg x) as Hdx.
  unfold SFltb, SFcompare.
  destruct (Z.compare_spec (Zdigits2 x - 106) (Zdigits2 y - 106))
    as [He | He | He]; [| reflexivity | lia].
  assert (Hdd : Zdigits2 x = Zdigits2 y) by lia.
  rewrite Hdd.
  assert (Hp : 0 < 2 ^ (52 - Zdigits2 y))
    by (apply Z.pow_pos_nonneg; lia).
  set (p := 2 ^ (52 - Zdigits2 y)) in *.
  assert (Hpx : 0 < (2 * x + 1) * p) by nia.
  assert (Hpy : 0 < (2 * y + 1) * p) by nia.
  assert (Hpxy : (2 * x + 1) * p < (2 * y + 1) * p) by nia.
  rewrite Pos.compare_cont_spec.
  rewrite <- Z2Pos.inj_compare by assumption.
  rewrite (proj2 (Z.compare_lt_iff _ _)) by assumption.
  reflexivity.
Qed.

Lemma ltb_irrefl (z : D.real_type) : D.ltb z z = false.
Proof.
  unfold D.ltb, SFltb.
  destruct z as [sz | sz | | sz mz ez]; try destruct sz; simpl;
    try reflexivity;
    rewrite Z.compare_refl, Pos.compare_cont_refl; reflexivity.
Qed.

Lemma shiftr11_below (x : Z) :
  0 <= x < 2 ^ 63 -> 0 <= Z.shiftr x 11 < 2 ^ 52.
Proof.
  intros Hx. rewrite Z.shiftr_div_pow2 by lia. split.
  - apply Z.div_pos; lia.
  - apply Z.div_lt_upper_bound; lia.
Qed.

Lemma digits_below_52 (k : Z) : 0 <= k < 2 ^ 52 -> Zdigits2 k <= 52.
Proof.
  intros Hk. destruct (Z.eq_dec k 0) as [-> | Hne]; [simpl; lia |].
  pose proof (Zdigits2_lower k ltac:(lia)) as Hl.
  assert (Zdigits2 k - 1 < 52); [| lia].
  apply (Z.pow_lt_mono_r_iff 2); lia.
Qed.

(** Below [2^63] a larger [x >> 11] gives a larger result. *)
Lemma int_to_real_double_u64_lt (x y : Z) :
  0 <= x -> y < 2 ^ 63 -> Z.shiftr x 11 < Z.shiftr y 11 ->
  D.ltb (int_to_real_double_u64 x) (int_to_real_double_u64 y) = true.
Proof.
  intros Hx Hy Hxy.
  assert (Hk0 : 0 <= Z.shiftr x 11) by now apply Z.shiftr_nonneg.
  assert (Hy0 : 0 <= y).
  { destruct (Z.le_gt_cases 0 y) as [H | H]; [exact H |].
    assert (Z.shiftr y 11 < 0) by now apply Z.shiftr_neg. lia. }
  assert (Hxy' : x < 2 ^ 63).
  { destruct (Z.lt_ge_cases x (2 ^ 63)) as [H | H]; [exact H |].
    exfalso. rewrite !Z.shiftr_div_pow2 in Hxy by lia.
    assert (y / 2 ^ 11 <= x / 2 ^ 11); [| lia].
    apply Z.div_le_mono; lia. }
  pose proof (shiftr11_below y ltac:(lia)) as Hky.
  rewrite (int_to_real_double_u64_exact x) by lia.
  rewrite (int_to_real_double_u64_exact y) by lia.
  apply exact_lt; [exact Hk0 | exact Hxy |].
  now apply digits_below_52.
Qed.

(** X16.  For every input [x] below [2^63] the 64-bit integer to
    [double] conversion is exact: with [k = x >> 11] the result is
    [(2k + 1) 2^-54] held without rounding, and it is below one half.
    Among such inputs a larger [k] gives a larger result, and two
    inputs have the same result exactly when they agree above bit 11.
    From [2^63] on the sum is rounded and this is lost: the inputs
    [(2^52 + 1) 2^11] and [(2^52 + 2) 2^11] give the same result. *)
Theorem int_to_real_double_u64_lower_half (x : Z)
        (Hx : 0 <= x < 2 ^ 63) :
  int_to_real_double_u64 x
  = S754_finite false
      (Z.to_pos ((2 * Z.shiftr x 11 + 1)
                 * 2 ^ (52 - Zdigits2 (Z.shiftr x 11))))
      (Zdigits2 (Z.shiftr x 11) - 106)
  /\ D.ltb (int_to_real_double_u64 x) c_0_5 = true
  /\ (forall y, 0 <= y < 2 ^ 63 ->
        (Z.shiftr x 11 < Z.shiftr y 11 ->
         D.ltb (int_to_real_double_u64 x) (int_to_real_double_u64 y)
         = true)
        /\ (int_to_real_double_u64 x = int_to_real_double_u64 y
            <-> Z.shiftr x 11 = Z.shiftr y 11))
  /\ int_to_real_double_u64 ((2 ^ 52 + 1) * 2 ^ 11)
     = int_to_real_double_u64 ((2 ^ 52 + 2) * 2 ^ 11).
Proof.
  pose proof (shiftr11_below x Hx) as Hk.
  pose proof (digits_below_52 _ Hk) as Hd.
  split; [now apply int_to_real_double_u64_exact |].
  split; [| split].
  - rewrite (int_to_real_double_u64_exact x) by exact Hx.
    replace c_0_5 with (S754_finite false 4503599627370496 (-53))
      by reflexivity.
    unfold D.ltb, SFltb, SFcompare.
    rewrite (proj2 (Z.compare_lt_iff _ _)) by lia. reflexivity.
  - intros y Hy. split.
    + intros Hlt. apply int_to_real_double_u64_lt; lia.
    + split.
      * intros Heq.
        destruct (Z.lt_trichotomy (Z.shiftr x 11) (Z.shiftr y 11))
          as [Hlt | [He | Hgt]]; [| exact He |]; exfalso.
        -- pose proof (int_to_real_double_u64_lt x y ltac:(lia)
                         ltac:(lia) Hlt) as H.
           rewrite Heq, ltb_irrefl in H. discriminate H.
        -- pose proof (int_to_real_double_u64_lt y x ltac:(lia)
                         ltac:(lia) Hgt) as H.
           rewrite Heq, ltb_irrefl in H. discriminate H.
      * intros Heq. unfold int_to_real_double_u64. rewrite Heq.
        reflexivity.
  - vm_compute. reflexivity.
Qed.

Lemma int_to_real_double_u64_lower_half_witness :
  0 <= 1000 < 2 ^ 63
  /\ int_to_real_double_u64 1000
     = S754_finite false 4503599627370496 (-106)
  /\ D.ltb (int_to_real_double_u64 1000) c_0_5 = true
  /\ D.ltb (int_to_real_double_u64 1000) (int_to_real_double_u64 4096)
     = true
  /\ (int_to_real_double_u64 1000 = int_to_real_double_u64 2047
      <-> Z.shiftr 1000 11 = Z.shiftr 2047 11).
Proof.
  split; [lia |].
  destruct (int_to_real_double_u64_lower_half 1000 ltac:(lia))
    as (Hexact & Hhalf & Hall & _).
  split; [exact Hexact |]. split; [exact Hhalf |]. split.
  - apply (Hall 4096); [lia | reflexivity].
  - apply (Hall 2047). lia.
Defined.
